(** * Lint report aggregator: analyze-lint.py and analyze-lint2.py

    A shallow embedding of the two scripts: the line parser (Python's
    [re.match] on the scripts' patterns), the accumulation loop over the
    lines of the captured lint output, the descending ranking of the rule
    counts and the fixed-group lookups of the report.

    Text is a list of characters.  Characters are code points below 256, and
    the character classes [\s], [\d], [\w] and [str.strip]'s whitespace are
    Python's classes for [str] on that range. *)

From Stdlib Require Import Ascii String DecimalString.
From Stdlib Require Import List Bool Arith Lia NArith Permutation.
Import ListNotations.

Set Implicit Arguments.

(** ** Text *)

Definition text := list ascii.

Definition txt (s : string) : text := list_ascii_of_string s.
Arguments txt s%_string.

Definition newline : ascii := "010"%char.

Fixpoint text_eqb (a b : text) : bool :=
  match a, b with
  | [], [] => true
  | x :: a', y :: b' => Ascii.eqb x y && text_eqb a' b'
  | _, _ => false
  end.

(** [s.startswith(p)], returning what follows the prefix. *)
Fixpoint strip_prefix (p s : text) : option text :=
  match p, s with
  | [], _ => Some s
  | x :: p', y :: s' => if Ascii.eqb x y then strip_prefix p' s' else None
  | _ :: _, [] => None
  end.

Definition startswith (p s : text) : bool :=
  match strip_prefix p s with Some _ => true | None => false end.

(** [p in s] for strings: [p] occurs in [s] as a substring. *)
Fixpoint contains (p s : text) : bool :=
  startswith p s || match s with [] => false | _ :: s' => contains p s' end.

(** ** Character classes *)

Section Classes.
Local Open Scope N_scope.

Definition in_range (lo hi : N) (c : ascii) : bool :=
  (lo <=? N_of_ascii c) && (N_of_ascii c <=? hi).

(** [str.isspace], which is also [\s] of a [str] pattern. *)
Definition is_space (c : ascii) : bool :=
  in_range 9 13 c || in_range 28 32 c || in_range 133 133 c
  || in_range 160 160 c.

(** [\d] *)
Definition is_digit (c : ascii) : bool := in_range 48 57 c.

(** [str.isalnum] *)
Definition is_alnum (c : ascii) : bool :=
  in_range 48 57 c || in_range 65 90 c || in_range 97 122 c
  || in_range 170 170 c || in_range 178 179 c || in_range 181 181 c
  || in_range 185 186 c || in_range 188 190 c || in_range 192 214 c
  || in_range 216 246 c || in_range 248 255 c.

(** [\w] *)
Definition is_word (c : ascii) : bool := is_alnum c || Ascii.eqb c "_".

(** [[\w-]] *)
Definition rule_char (c : ascii) : bool := is_word c || Ascii.eqb c "-".

(** [[^\s]] *)
Definition not_space (c : ascii) : bool := negb (is_space c).

(** [.] without DOTALL *)
Definition any_char (c : ascii) : bool := negb (Ascii.eqb c newline).
End Classes.

(** ** [str.strip] and [str.split] *)

Fixpoint lstrip (s : text) : text :=
  match s with
  | c :: s' => if is_space c then lstrip s' else s
  | [] => []
  end.

Definition rstrip (s : text) : text := rev (lstrip (rev s)).

Definition strip (s : text) : text := rstrip (lstrip s).

(** [s.split(sep)] for a one-character separator: never the empty list. *)
Fixpoint split (sep : ascii) (s : text) : list text :=
  match s with
  | [] => [[]]
  | c :: s' =>
      if Ascii.eqb c sep then [] :: split sep s'
      else match split sep s' with
           | l :: ls => (c :: l) :: ls
           | [] => [[c]]
           end
  end.

(** ** Regular expressions

    The fragment of Python's [re] syntax that the scripts' patterns use.
    Repetition only occurs on character classes.  Matching is the
    backtracking search of [re]: a greedy repetition tries the longest run
    first, a lazy one the shortest, an alternation its left branch first. *)

Inductive regex : Type :=
| Bol                              (* ^ *)
| Eol                              (* $ *)
| Lit (c : ascii)                  (* one literal character *)
| Word (w : text)                  (* a literal word *)
| Plus (p : ascii -> bool)         (* C+ *)
| PlusLazy (p : ascii -> bool)     (* C+? *)
| Alt (r1 r2 : regex)              (* r1|r2 *)
| Seq (r1 r2 : regex)              (* r1 r2 *)
| Group (n : nat) (r : regex).     (* the n-th parenthesis *)

Arguments Lit c%_char.

Definition captures := list (nat * text).

(** What was consumed between the input [s] and its suffix [s']. *)
Definition taken (s s' : text) : text := firstn (length s - length s') s.

Section Matcher.
(** The subject string: [^] matches only at its start. *)
Variable whole : text.

Fixpoint star_greedy (p : ascii -> bool) (s : text)
    (k : text -> option captures) : option captures :=
  match s with
  | c :: s' =>
      if p c then
        match star_greedy p s' k with
        | Some m => Some m
        | None => k s
        end
      else k s
  | [] => k s
  end.

Fixpoint star_lazy (p : ascii -> bool) (s : text)
    (k : text -> option captures) : option captures :=
  match k s with
  | Some m => Some m
  | None =>
      match s with
      | c :: s' => if p c then star_lazy p s' k else None
      | [] => None
      end
  end.

Fixpoint run (r : regex) (s : text) (c : captures)
    (k : text -> captures -> option captures) : option captures :=
  match r with
  | Bol => if length s =? length whole then k s c else None
  | Eol =>
      match s with
      | [] => k s c
      | [a] => if Ascii.eqb a newline then k s c else None
      | _ => None
      end
  | Lit a =>
      match s with
      | b :: s' => if Ascii.eqb a b then k s' c else None
      | [] => None
      end
  | Word w =>
      match strip_prefix w s with
      | Some s' => k s' c
      | None => None
      end
  | Plus p =>
      match s with
      | b :: s' => if p b then star_greedy p s' (fun s1 => k s1 c) else None
      | [] => None
      end
  | PlusLazy p =>
      match s with
      | b :: s' => if p b then star_lazy p s' (fun s1 => k s1 c) else None
      | [] => None
      end
  | Alt r1 r2 =>
      match run r1 s c k with
      | Some m => Some m
      | None => run r2 s c k
      end
  | Seq r1 r2 => run r1 s c (fun s1 c1 => run r2 s1 c1 k)
  | Group n r1 => run r1 s c (fun s1 c1 => k s1 ((n, taken s s1) :: c1))
  end.
End Matcher.

(** [re.match(pattern, s)]: the pattern has to match at the start of [s],
    not all of it. *)
Definition re_match (pattern : regex) (s : text) : option captures :=
  run s pattern s [] (fun _ c => Some c).

(** [m.group(n)] *)
Fixpoint group (n : nat) (m : captures) : option text :=
  match m with
  | [] => None
  | (i, t) :: m' => if i =? n then Some t else group n m'
  end.

(** [m.groups()] of a pattern with [n] groups. *)
Definition groups (n : nat) (m : captures) : list (option text) :=
  map (fun i => group i m) (seq 1 n).

Fixpoint seqs (rs : list regex) : regex :=
  match rs with
  | [] => Word []
  | [r] => r
  | r :: rs' => Seq r (seqs rs')
  end.

(** [@[\w-]+/[\w-]+] *)
Definition rule_re : regex :=
  seqs [Lit "@"; Plus rule_char; Lit "/"; Plus rule_char].

(** [(error|warning)] *)
Definition severity_re (n : nat) : regex :=
  Group n (Alt (Word (txt "error")) (Word (txt "warning"))).

(** analyze-lint.py, line 12:
    [^(/[^\s]+)\s+(\d+):(\d+)\s+(error|warning)\s+(.+?)\s+(@[\w-]+/[\w-]+)$] *)
Definition error_pattern : regex :=
  seqs [Bol; Group 1 (Seq (Lit "/") (Plus not_space)); Plus is_space;
        Group 2 (Plus is_digit); Lit ":"; Group 3 (Plus is_digit);
        Plus is_space; severity_re 4; Plus is_space;
        Group 5 (PlusLazy any_char); Plus is_space; Group 6 rule_re; Eol].

(** analyze-lint2.py, line 60: [^\s+\d+:\d+\s+(error|warning)] *)
Definition head_pattern : regex :=
  seqs [Bol; Plus is_space; Plus is_digit; Lit ":"; Plus is_digit;
        Plus is_space; severity_re 1].

(** analyze-lint2.py, line 61:
    [^\s+(\d+):(\d+)\s+(error|warning)\s+(.+?)\s+(@[\w-]+/[\w-]+)$] *)
Definition finding_pattern : regex :=
  seqs [Bol; Plus is_space; Group 1 (Plus is_digit); Lit ":";
        Group 2 (Plus is_digit); Plus is_space; severity_re 3; Plus is_space;
        Group 4 (PlusLazy any_char); Plus is_space; Group 5 rule_re; Eol].

(** ** Dictionaries

    A Python [dict] keeps its keys in insertion order, and the ranking of the
    report depends on that order: a dictionary is the list of its items, each
    key once. *)

Definition dict (V : Type) := list (text * V).

(** [d.get(k)] *)
Fixpoint lookup V (k : text) (d : dict V) : option V :=
  match d with
  | [] => None
  | (k', v) :: d' => if text_eqb k k' then Some v else lookup k d'
  end.

(** [d[k] = f(d.get(k))]: an existing key keeps its place, a new one goes
    last. *)
Fixpoint update V (k : text) (f : option V -> V) (d : dict V) : dict V :=
  match d with
  | [] => [(k, f None)]
  | (k', v) :: d' =>
      if text_eqb k k' then (k', f (Some v)) :: d'
      else (k', v) :: update k f d'
  end.

(** [d.get(k, default)] *)
Definition get V (k : text) (default : V) (d : dict V) : V :=
  match lookup k d with
  | Some v => v
  | None => default
  end.

(** [d[k] += 1] on a [defaultdict(int)] *)
Definition incr (k : text) (d : dict nat) : dict nat :=
  update k (fun o => match o with Some n => n + 1 | None => 0 + 1 end) d.

(** [d[k].append(x)] on a [defaultdict(list)] *)
Definition append_to V (k : text) (x : V) (d : dict (list V))
    : dict (list V) :=
  update k (fun o => match o with Some l => l ++ [x] | None => [] ++ [x] end) d.

(** ** [pathlib.Path(p).parts] on a POSIX system

    The root comes first ([//] for exactly two leading slashes, [/] for any
    other number of them), then the components between slashes, without the
    empty ones and the [.] ones. *)

Definition is_component (x : text) : bool :=
  negb (text_eqb x []) && negb (text_eqb x (txt ".")).

Definition parts (p : text) : list text :=
  let parsed := filter is_component (split "/" p) in
  match p with
  | "/" :: "/" :: "/" :: _ => txt "/" :: parsed
  | "/" :: "/" :: _ => txt "//" :: parsed
  | "/" :: _ => txt "/" :: parsed
  | _ => parsed
  end%char.

(** [l.index(x)]; Python raises ValueError where this is [None]. *)
Fixpoint index (x : text) (l : list text) : option nat :=
  match l with
  | [] => None
  | y :: l' =>
      if text_eqb y x then Some 0
      else match index x l' with
           | Some i => Some (S i)
           | None => None
           end
  end.

(** The directory that a file counts for (analyze-lint.py, lines 37-41;
    analyze-lint2.py, lines 78-82). *)
Definition directory_of (file_path : text) : option text :=
  let path_parts := parts file_path in
  if existsb (text_eqb (txt "src")) path_parts then
    match index (txt "src") path_parts with
    | Some src_index =>
        if src_index + 1 <? length path_parts
        then nth_error path_parts (src_index + 1)
        else None
    | None => None
    end
  else None.

(** ** The accumulation *)

Record Finding : Type := {
  line : text;
  column : text;
  severity : text;
  message : text;
  rule : text
}.

Record Aggregates : Type := {
  errors_by_type : dict nat;
  errors_by_file : dict (list Finding);
  errors_by_directory : dict nat;
  total_errors : nat;
  total_warnings : nat
}.

Definition no_findings : Aggregates :=
  {| errors_by_type := []; errors_by_file := []; errors_by_directory := [];
     total_errors := 0; total_warnings := 0 |}.

(** The body of the [if match:] branch, the same in both scripts
    (analyze-lint.py, lines 24-48; analyze-lint2.py, lines 65-89). *)
Definition accumulate (file_path : text) (f : Finding) (st : Aggregates)
    : Aggregates :=
  let by_type := incr (rule f) (errors_by_type st) in
  let by_file := append_to file_path f (errors_by_file st) in
  let by_directory :=
    match directory_of file_path with
    | Some directory => incr directory (errors_by_directory st)
    | None => errors_by_directory st
    end in
  if text_eqb (severity f) (txt "error") then
    {| errors_by_type := by_type; errors_by_file := by_file;
       errors_by_directory := by_directory;
       total_errors := total_errors st + 1;
       total_warnings := total_warnings st |}
  else
    {| errors_by_type := by_type; errors_by_file := by_file;
       errors_by_directory := by_directory;
       total_errors := total_errors st;
       total_warnings := total_warnings st + 1 |}.

(** What [subprocess.run(..., capture_output=True, text=True)] returns. *)
Record CompletedProcess : Type := {
  stdout : text;
  stderr : text
}.

(** *** analyze-lint.py *)

(** What one line yields: the file path and the finding (lines 20-34). *)
Definition parse_flat (l : text) : option (text * Finding) :=
  match re_match error_pattern (strip l) with
  | Some m =>
      match groups 6 m with
      | [Some file_path; Some line_num; Some col_num; Some sev; Some msg;
         Some r] =>
          Some (file_path,
                {| line := line_num; column := col_num; severity := sev;
                   message := msg; rule := r |})
      | _ => None
      end
  | None => None
  end.

(** One turn of the loop of lines 19-48. *)
Definition step1 (st : Aggregates) (l : text) : Aggregates :=
  match parse_flat l with
  | Some (file_path, f) => accumulate file_path f st
  | None => st
  end.

Definition analyze1 (result : CompletedProcess) : Aggregates :=
  let output := stdout result ++ stderr result in
  fold_left step1 (split newline output) no_findings.

(** *** analyze-lint2.py *)

Record Cursor : Type := {
  current_file : option text;
  found : Aggregates
}.

Definition start2 : Cursor :=
  {| current_file := None; found := no_findings |}.

(** Line 57: [line and line.startswith('/') and not line.startswith(' ')] *)
Definition is_file_line (l : text) : bool :=
  negb (text_eqb l []) && startswith (txt "/") l
  && negb (startswith (txt " ") l).

(** Lines 60-63: the finding of an indented line. *)
Definition parse_block (l : text) : option Finding :=
  match re_match head_pattern l with
  | Some _ =>
      match re_match finding_pattern l with
      | Some m =>
          match groups 5 m with
          | [Some line_num; Some col_num; Some sev; Some msg; Some r] =>
              Some {| line := line_num; column := col_num; severity := sev;
                      message := msg; rule := r |}
          | _ => None
          end
      | None => None
      end
  | None => None
  end.

(** Truth value of [current_file]: neither [None] nor the empty string. *)
Definition truthy (o : option text) : option text :=
  match o with
  | Some [] => None
  | _ => o
  end.

(** One turn of the loop of lines 55-89. *)
Definition step2 (st : Cursor) (l : text) : Cursor :=
  if is_file_line l then
    {| current_file := Some (strip l); found := found st |}
  else
    match truthy (current_file st) with
    | Some file =>
        match parse_block l with
        | Some f =>
            {| current_file := current_file st;
               found := accumulate file f (found st) |}
        | None => st
        end
    | None => st
    end.

Definition scan2 (full_output : text) : Cursor :=
  fold_left step2 (split newline full_output) start2.

Definition analyze2 (result : CompletedProcess) : Aggregates :=
  let full_output := stderr result in
  found (scan2 full_output).

(** ** The report *)

(** [sorted(items, key=lambda x: x[1], reverse=True)].  Python's sort is
    stable, also with [reverse=True]: the result is the one arrangement of the
    items with descending counts in which items of equal count keep their
    order.  An insertion from the right that only passes strictly larger
    counts computes it. *)
Fixpoint insert_desc V (x : V * nat) (l : list (V * nat)) : list (V * nat) :=
  match l with
  | [] => [x]
  | y :: l' => if snd x <? snd y then y :: insert_desc x l' else x :: y :: l'
  end.

Definition sorted_desc V (l : list (V * nat)) : list (V * nat) :=
  fold_right (@insert_desc V) [] l.

(** analyze-lint.py, line 58; analyze-lint2.py, line 99 *)
Definition sorted_errors (st : Aggregates) : list (text * nat) :=
  sorted_desc (errors_by_type st).

(** The rule identifiers in ranking order. *)
Definition ranking (st : Aggregates) : list text :=
  map fst (sorted_errors st).

(** [str(n)] *)
Definition str_of_nat (n : nat) : text :=
  txt (NilZero.string_of_uint (Nat.to_uint n)).

(** [sum(count for rule, count in errors_by_type.items()
         if 'react-hooks' in rule)] *)
Definition react_hooks_total (st : Aggregates) : nat :=
  fold_left Nat.add
    (map snd
       (filter (fun item => contains (txt "react-hooks") (fst item))
          (errors_by_type st)))
    0.

(** The five counts of the fixed groups, in the order of the report
    (analyze-lint.py, lines 88-105; analyze-lint2.py, lines 132-136). *)
Definition group_counts (st : Aggregates) : list nat :=
  [ get (txt "@typescript-eslint/no-explicit-any") 0 (errors_by_type st);
    get (txt "@typescript-eslint/no-unused-vars") 0 (errors_by_type st);
    react_hooks_total st;
    get (txt "react-refresh/only-export-components") 0 (errors_by_type st);
    get (txt "@typescript-eslint/no-empty-object-type") 0
      (errors_by_type st) ].

(** The count lines that analyze-lint.py prints (lines 88, 92, 97, 101 and
    105). *)
Definition group_lines1 (st : Aggregates) : list text :=
  match group_counts st with
  | [any_errors; unused_vars; hooks; react_refresh; empty_interface] =>
      [ txt "  - Total: " ++ str_of_nat any_errors ++ txt " errors";
        txt "  - Total: " ++ str_of_nat unused_vars ++ txt " errors";
        txt "  - Total: " ++ str_of_nat hooks ++ txt " warnings";
        txt "  - Total: " ++ str_of_nat react_refresh ++ txt " warnings";
        txt "  - Total: " ++ str_of_nat empty_interface ++ txt " errors" ]
  | _ => []
  end.

(** The count lines that analyze-lint2.py prints (lines 140, 145, 150, 155
    and 160). *)
Definition group_lines2 (st : Aggregates) : list text :=
  match group_counts st with
  | [any_errors; unused_vars; hooks; react_refresh; empty_interface] =>
      [ txt "  - Count: " ++ str_of_nat any_errors ++ txt " errors";
        txt "  - Count: " ++ str_of_nat unused_vars ++ txt " errors";
        txt "  - Count: " ++ str_of_nat hooks ++ txt " warnings";
        txt "  - Count: " ++ str_of_nat react_refresh ++ txt " warnings";
        txt "  - Count: " ++ str_of_nat empty_interface ++ txt " errors" ]
  | _ => []
  end.

(** All findings with their files, file by file. *)
Definition findings (st : Aggregates) : list (text * Finding) :=
  flat_map (fun item => map (pair (fst item)) (snd item)) (errors_by_file st).

(** The line break between two lines of output. *)
Definition nl : text := [newline].

(** Output in the block shape: two files, one finding with an un-scoped
    rule. *)
Definition sample_block : text :=
  txt "/Users/x/canvas/src/App-fast.tsx" ++ nl ++
  txt "  214:109  error  Unexpected any. Specify a different type  @typescript-eslint/no-explicit-any" ++ nl ++
  nl ++
  txt "/Users/x/canvas/src/components/Scan.tsx" ++ nl ++
  txt "  174:6  warning  React Hook useCallback has a missing dependency  react-hooks/exhaustive-deps" ++ nl ++
  txt "  29:49  warning  Unused  @typescript-eslint/no-unused-vars" ++ nl.

(** ** Vocabulary of the properties *)

Definition keys V (d : dict V) : list text := map fst d.

(** The sum of the counts of a dictionary: [sum(d.values())]. *)
Definition sum_counts (d : dict nat) : nat := list_sum (map snd d).

(** The per-rule counts add up to the errors plus the warnings. *)
Definition balanced (st : Aggregates) : Prop :=
  sum_counts (errors_by_type st) = total_errors st + total_warnings st.

(** A run of the lint command that printed nothing. *)
Definition silent : CompletedProcess := {| stdout := []; stderr := [] |}.

Definition all_in (p : ascii -> bool) (m : text) : Prop :=
  Forall (fun x => p x = true) m.

(** [Matches whole r m s c c']: in the subject [whole], the expression [r]
    can consume [m] in front of [s], turning the captures [c] into [c']. *)
Inductive Matches (whole : text)
  : regex -> text -> text -> captures -> captures -> Prop :=
| M_Bol s c : length s = length whole -> Matches whole Bol [] s c c
| M_Eol s c : s = [] \/ s = [newline] -> Matches whole Eol [] s c c
| M_Lit a s c : Matches whole (Lit a) [a] s c c
| M_Word w s c : Matches whole (Word w) w s c c
| M_Plus p m s c : m <> [] -> all_in p m -> Matches whole (Plus p) m s c c
| M_PlusLazy p m s c :
    m <> [] -> all_in p m -> Matches whole (PlusLazy p) m s c c
| M_AltL r1 r2 m s c c' :
    Matches whole r1 m s c c' -> Matches whole (Alt r1 r2) m s c c'
| M_AltR r1 r2 m s c c' :
    Matches whole r2 m s c c' -> Matches whole (Alt r1 r2) m s c c'
| M_Seq r1 r2 m1 m2 s c c1 c2 :
    Matches whole r1 m1 (m2 ++ s) c c1 -> Matches whole r2 m2 s c1 c2 ->
    Matches whole (Seq r1 r2) (m1 ++ m2) s c c2
| M_Group n r m s c c' :
    Matches whole r m s c c' ->
    Matches whole (Group n r) m s c ((n, m) :: c').

(** A rule identifier: [@], a run of [[\w-]], [/], a run of [[\w-]]. *)
Definition is_rule_id (r : text) : Prop :=
  exists a b,
    r = ["@"%char] ++ a ++ ["/"%char] ++ b
    /\ a <> [] /\ b <> [] /\ all_in rule_char a /\ all_in rule_char b.

(** [t] is what [s] ends with. *)
Definition ends_in (t s : text) : Prop := exists before, s = before ++ t.

(** The longest prefix of [s] in a class, and what follows it. *)
Fixpoint span (p : ascii -> bool) (s : text) : text * text :=
  match s with
  | c :: s' => if p c then let (m, r) := span p s' in (c :: m, r) else ([], s)
  | [] => ([], [])
  end.

(** [s] ends with a rule identifier: read from the end, a run of [[\w-]],
    a slash, a run of [[\w-]] and the [@]. *)
Definition ends_with_rule (s : text) : bool :=
  match span rule_char (rev s) with
  | (_ :: _, "/"%char :: rest) =>
      match span rule_char rest with
      | (_ :: _, "@"%char :: _) => true
      | _ => false
      end
  | _ => false
  end.

(** The line starts an entry of its own: a path comes first (flat shape), or
    the indented position and severity of line 60 of analyze-lint2.py. *)
Definition starts_entry (l : text) : bool :=
  startswith (txt "/") (strip l)
  || match re_match head_pattern l with Some _ => true | None => false end.

(** The file path of the last line of [before] that is un-indented and
    starts with a slash. *)
Definition nearest_file_path (before : list text) : option text :=
  option_map strip (find (startswith (txt "/")) (rev before)).

(** The rule identifier has a scope: it starts with [@]. *)
Definition scoped (r : text) : bool := startswith (txt "@") r.

(** The example line of the specification, the position glued to the path
    with a colon. *)
Definition colon_line : text :=
  txt "/a/b/src/components/Foo.tsx:12:3  error  Unexpected any. Specify a different type  @typescript-eslint/no-explicit-any".

(** The same line in the flat shape, white space after the path. *)
Definition flat_line : text :=
  txt "/a/b/src/components/Foo.tsx 12:3  error  Unexpected any. Specify a different type  @typescript-eslint/no-explicit-any".

(** Two lines of the sample in analyze-lint2.py (lines 18-19), the rule
    without a scope. *)
Definition hooks_block : text :=
  txt "/Users/jasonsmacbookpro2022/canvas/src/components/CinematicScanExperience.tsx"
  ++ nl ++
  txt "  174:6  warning  React Hook useCallback has a missing dependency: 'handleScanResult'. Either include it or remove the dependency array  react-hooks/exhaustive-deps".

(** Every recorded rule identifier has a scope. *)
Definition scoped_state (st : Aggregates) : Prop :=
  Forall (fun k => scoped k = true) (keys (errors_by_type st))
  /\ Forall (fun x => scoped (rule (snd x)) = true) (findings st).

(** The two scripts as two configurations of the aggregator. *)
Inductive script : Type := lint1 | lint2.

Definition analyze (s : script) (result : CompletedProcess) : Aggregates :=
  match s with
  | lint1 => analyze1 result
  | lint2 => analyze2 result
  end.

(** The findings in the order of the lines they come from. *)
Definition recorded1 (ls : list text) : list (text * Finding) :=
  flat_map
    (fun l => match parse_flat l with Some x => [x] | None => [] end) ls.

Fixpoint recorded2 (cursor : option text) (ls : list text)
    : list (text * Finding) :=
  match ls with
  | [] => []
  | l :: ls' =>
      if is_file_line l then recorded2 (Some (strip l)) ls'
      else
        match truthy cursor, parse_block l with
        | Some file, Some f => (file, f) :: recorded2 cursor ls'
        | _, _ => recorded2 cursor ls'
        end
  end.

Definition recorded (s : script) (result : CompletedProcess)
    : list (text * Finding) :=
  match s with
  | lint1 => recorded1 (split newline (stdout result ++ stderr result))
  | lint2 => recorded2 None (split newline (stderr result))
  end.

(** The rule identifiers of the input, one per finding, in input order. *)
Definition input_rules (s : script) (result : CompletedProcess) : list text :=
  map (fun x => rule (snd x)) (recorded s result).

(** Going through [l], [a] is met before [b] is. *)
Fixpoint precedes (a b : text) (l : list text) : bool :=
  match l with
  | [] => false
  | x :: l' =>
      if text_eqb x a then true
      else if text_eqb x b then false
      else precedes a b l'
  end.

(** Equality of texts is decidable. *)
Definition text_dec : forall a b : text, {a = b} + {a <> b} :=
  list_eq_dec ascii_dec.

(** One finding accumulated, as a step of a fold. *)
Definition record (st : Aggregates) (x : text * Finding) : Aggregates :=
  accumulate (fst x) (snd x) st.

(** The ranking has descending counts. *)
Definition descending V (l : list (V * nat)) : Prop :=
  forall i j x y,
    i < j -> nth_error l i = Some x -> nth_error l j = Some y ->
    snd y <= snd x.

(** A block with two rules of one count and a rule of a larger count. *)
Definition ties_block : text :=
  txt "/a/src/lib/x.ts" ++ nl ++
  txt "  1:1  error  m  @s/late" ++ nl ++
  txt "  2:1  warning  m  @s/twice" ++ nl ++
  txt "  3:1  error  m  @s/early" ++ nl ++
  txt "  4:1  warning  m  @s/twice".

(** ** The rest of the report *)

(** The findings counted by a predicate. *)
Definition count_where A (p : A -> bool) (l : list A) : nat :=
  length (filter p l).

(** [sorted_errors[:K]]: K is 10 in analyze-lint.py (line 59) and 5 in
    analyze-lint2.py (line 100). *)
Definition top_errors (K : nat) (st : Aggregates) : list (text * nat) :=
  firstn K (sorted_errors st).

(** What is left out of the top list. *)
Definition below_top (K : nat) (st : Aggregates) : list (text * nat) :=
  skipn K (sorted_errors st).


(** The grouping loop (analyze-lint.py, lines 69-76; analyze-lint2.py, lines
    114-121): one turn for one item of [errors_by_file]. *)
Definition group_file (file_groups : dict (list (text * nat)))
    (item : text * list Finding) : dict (list (text * nat)) :=
  match directory_of (fst item) with
  | Some directory =>
      append_to directory (fst item, length (snd item)) file_groups
  | None => file_groups
  end.

Definition file_groups (st : Aggregates) : dict (list (text * nat)) :=
  fold_left group_file (errors_by_file st) [].

(** The directories that the report shows: line 79 of analyze-lint.py and
    line 124 of analyze-lint2.py. *)
Definition shown_directories (s : script) : list text :=
  match s with
  | lint1 => [txt "components"; txt "lib"; txt "pages"; txt "utils";
              txt "hooks"]
  | lint2 => [txt "components"; txt "lib"; txt "pages"; txt "utils";
              txt "hooks"; txt "auth"]
  end.

(** The files shown for the listed directories: for each one that is a key of
    the groups, its five files of most findings (lines 79-84 and 124-129). *)
Definition shown_files (s : script) (st : Aggregates)
    : list (text * list (text * nat)) :=
  flat_map
    (fun directory =>
       match lookup directory (file_groups st) with
       | Some group => [(directory, firstn 5 (sorted_desc group))]
       | None => []
       end)
    (shown_directories s).

(** The findings of the events that passed for one file. *)
Definition of_file (file : text) (evs : list (text * Finding)) : list Finding :=
  map snd (filter (fun x => text_eqb (fst x) file) evs).

(** The finding counts for a directory key. *)
Definition in_directory (d : text) (x : text * Finding) : bool :=
  match directory_of (fst x) with
  | Some d' => text_eqb d' d
  | None => false
  end.

(** ** Lines written from a finding

    The two line shapes that the patterns are meant for, with the white
    space between the fields left open. *)

Definition flat_render (file_path : text) (f : Finding) (g1 g2 g3 g4 : text)
    : text :=
  file_path ++ g1 ++ line f ++ ":"%char :: column f ++ g2 ++ severity f
  ++ g3 ++ message f ++ g4 ++ rule f.

Definition block_render (f : Finding) (g0 g2 g3 g4 : text) : text :=
  g0 ++ line f ++ ":"%char :: column f ++ g2 ++ severity f
  ++ g3 ++ message f ++ g4 ++ rule f.

Definition nonempty (s : text) : bool :=
  match s with [] => false | _ :: _ => true end.

(** A run of digits. *)
Definition digits (s : text) : bool := nonempty s && forallb is_digit s.

(** A run of white space. *)
Definition gap (g : text) : bool := nonempty g && forallb is_space g.

(** No white space at either end, and not empty. *)
Definition tight (m : text) : bool :=
  match m, rev m with
  | c :: _, d :: _ => negb (is_space c) && negb (is_space d)
  | _, _ => false
  end.

(** [is_rule_id], as a test. *)
Definition is_rule_idb (r : text) : bool :=
  match r with
  | "@"%char :: rest =>
      match span rule_char rest with
      | (_ :: _, "/"%char :: b) => nonempty b && forallb rule_char b
      | _ => false
      end
  | _ => false
  end.

(** The fields of a finding as a lint line has them. *)
Definition renderable (f : Finding) : bool :=
  digits (line f) && digits (column f)
  && (text_eqb (severity f) (txt "error")
      || text_eqb (severity f) (txt "warning"))
  && tight (message f) && forallb any_char (message f)
  && is_rule_idb (rule f).

(** An absolute path without white space. *)
Definition flat_path (p : text) : bool :=
  match p with
  | "/"%char :: x => nonempty x && forallb not_space x
  | _ => false
  end.

(** [rest] does not go on with a character of the class. *)
Definition stops (p : ascii -> bool) (rest : text) : Prop :=
  match rest with
  | [] => True
  | c :: _ => p c = false
  end.

(** ["\n".join(ls)] *)
Fixpoint unlines (ls : list text) : text :=
  match ls with
  | [] => []
  | [l] => l
  | l :: ls' => l ++ newline :: unlines ls'
  end.

(** White space that stays on the line. *)
Definition inline_gap (g : text) : bool :=
  gap g && forallb any_char g.

(** A finding next to the white space to write it with. *)
Record Written : Type := {
  w_path : text;
  w_finding : Finding;
  w_gaps : text * text * text * text
}.

Definition written_ok (flat : bool) (w : Written) : bool :=
  let '(g1, g2, g3, g4) := w_gaps w in
  (if flat then flat_path (w_path w) else true)
  && renderable (w_finding w)
  && inline_gap g1 && inline_gap g2 && inline_gap g3 && inline_gap g4.

Definition flat_line_of (w : Written) : text :=
  let '(g1, g2, g3, g4) := w_gaps w in
  flat_render (w_path w) (w_finding w) g1 g2 g3 g4.





(** A report in the flat shape. *)
Definition flat_report (ws : list Written) : text :=
  unlines (map flat_line_of ws).

(** The path has a directory key. *)
Definition has_directory (x : text * Finding) : bool :=
  match directory_of (fst x) with Some _ => true | None => false end.

(** The findings stored under the files of one directory key. *)
Definition stored_in (d : text) (by_file : dict (list Finding)) : nat :=
  list_sum
    (map (fun item => length (snd item))
       (filter (fun item => match directory_of (fst item) with
                            | Some d' => text_eqb d' d
                            | None => false
                            end) by_file)).

(** The fields of a recorded finding as the patterns let them be. *)
Definition well_formed (x : text * Finding) : bool :=
  startswith (txt "/") (fst x)
  && digits (line (snd x)) && digits (column (snd x))
  && (text_eqb (severity (snd x)) (txt "error")
      || text_eqb (severity (snd x)) (txt "warning"))
  && nonempty (message (snd x)) && forallb any_char (message (snd x))
  && is_rule_idb (rule (snd x)).

(** The line parses in the flat shape. *)
Definition parses_flat (l : text) : bool :=
  match parse_flat l with Some _ => true | None => false end.

(** The line counts in the block shape: it moves the cursor or parses. *)
Definition counts_in_block (l : text) : bool :=
  is_file_line l
  || match parse_block l with Some _ => true | None => false end.

(** The rule is of the hooks family: ['react-hooks' in rule]. *)
Definition is_hooks_rule (r : text) : bool := contains (txt "react-hooks") r.

(** The findings with a given rule. *)
Definition with_rule (r : text) (x : text * Finding) : bool :=
  text_eqb r (rule (snd x)).

(** A report of the block shape with three files, two of them under
    directories of the fixed list. *)
Definition shown_sample : CompletedProcess :=
  {| stdout := [];
     stderr := txt "/a/src/lib/x.ts" ++ nl ++
               txt "  1:2  error  m  @s/r" ++ nl ++
               txt "  3:4  warning  n  @s/q" ++ nl ++
               txt "/a/src/other/y.ts" ++ nl ++
               txt "  5:6  error  m  @s/r" |}.

(** The first finding of the sample in analyze-lint2.py (line 9), with the
    white space of that line. *)
Definition any_finding (ln col : text) : Written :=
  {| w_path := txt "/a/b/src/components/Foo.tsx";
     w_finding :=
       {| line := ln; column := col; severity := txt "error";
          message := txt "Unexpected any. Specify a different type";
          rule := txt "@typescript-eslint/no-explicit-any" |};
     w_gaps := (txt "  ", txt "  ", txt "  ", txt "  ") |}.



(** A block with six rules, one of them twice: more rules than the top list
    of analyze-lint2.py shows. *)
Definition six_rules_block : text :=
  txt "/a/src/lib/x.ts" ++ nl ++
  txt "  1:1  error  m  @s/b" ++ nl ++
  txt "  2:1  warning  m  @s/a" ++ nl ++
  txt "  3:1  error  m  @s/c" ++ nl ++
  txt "  4:1  error  m  @s/d" ++ nl ++
  txt "  5:1  warning  m  @s/a" ++ nl ++
  txt "  6:1  error  m  @s/e" ++ nl ++
  txt "  7:1  error  m  @s/f".

(** * Properties *)

(** ** The patterns on sample lines *)

Example error_pattern_ex1 :
  re_match error_pattern (txt "/a 1:2 error x  y @q/r @a/b")
  = Some [(6, txt "@a/b"); (5, txt "x  y @q/r"); (4, txt "error");
          (3, txt "2"); (2, txt "1"); (1, txt "/a")].
Proof. vm_compute. reflexivity. Qed.

Example error_pattern_ex2 :
  re_match error_pattern (txt "/a 1:2 warning  @a/b @a/b")
  = Some [(6, txt "@a/b"); (5, txt "@a/b"); (4, txt "warning");
          (3, txt "2"); (2, txt "1"); (1, txt "/a")].
Proof. vm_compute. reflexivity. Qed.

Example error_pattern_ex3 :
  re_match error_pattern (txt "/a 1:2 errors x @a/b") = None.
Proof. vm_compute. reflexivity. Qed.

(** ** Text and dictionaries *)

Lemma text_eqb_eq (a b : text) : text_eqb a b = true <-> a = b.
Proof.
  revert b; induction a as [|x a IH]; intros [|y b]; simpl;
    try (split; congruence).
  rewrite andb_true_iff, Ascii.eqb_eq, IH. split.
  - intros [-> ->]; reflexivity.
  - intros H; injection H; auto.
Qed.

Lemma text_eqb_refl (a : text) : text_eqb a a = true.
Proof. apply text_eqb_eq; reflexivity. Qed.

Lemma text_eqb_neq (a b : text) : text_eqb a b = false <-> a <> b.
Proof.
  rewrite <- text_eqb_eq. destruct (text_eqb a b); split; congruence.
Qed.

Lemma text_eqb_sym (a b : text) : text_eqb a b = text_eqb b a.
Proof.
  destruct (text_eqb b a) eqn:E.
  - apply text_eqb_eq in E; subst; apply text_eqb_refl.
  - apply text_eqb_neq. apply text_eqb_neq in E. congruence.
Qed.

Lemma lookup_None V (k : text) (d : dict V) :
  lookup k d = None <-> ~ In k (keys d).
Proof.
  induction d as [|[k' v] d IH]; simpl.
  - tauto.
  - destruct (text_eqb k k') eqn:E.
    + apply text_eqb_eq in E; subst. split; [discriminate | tauto].
    + apply text_eqb_neq in E. rewrite IH. intuition congruence.
Qed.

Lemma sum_counts_incr (k : text) (d : dict nat) :
  sum_counts (incr k d) = sum_counts d + 1.
Proof.
  unfold sum_counts, incr.
  induction d as [|[k' v] d IH]; [reflexivity|].
  unfold list_sum in *.
  cbn [update]. destruct (text_eqb k k'); cbn [map snd fold_right].
  - lia.
  - rewrite IH. lia.
Qed.

(** ** The counters agree *)

Lemma accumulate_balanced file_path f st :
  balanced st -> balanced (accumulate file_path f st).
Proof.
  unfold balanced, accumulate; intros H.
  destruct (text_eqb (severity f) (txt "error"));
    cbn [errors_by_type total_errors total_warnings];
    rewrite sum_counts_incr; lia.
Qed.

Lemma step1_balanced st l : balanced st -> balanced (step1 st l).
Proof.
  unfold step1; intros H.
  destruct (parse_flat l) as [[file_path f]|]; auto using accumulate_balanced.
Qed.

Lemma step2_balanced st l : balanced (found st) -> balanced (found (step2 st l)).
Proof.
  unfold step2; intros H.
  destruct (is_file_line l); simpl; auto.
  destruct (truthy (current_file st)); auto.
  destruct (parse_block l); simpl; auto using accumulate_balanced.
Qed.

Lemma loop1_balanced ls st : balanced st -> balanced (fold_left step1 ls st).
Proof.
  revert st; induction ls as [|l ls IH]; simpl; auto using step1_balanced.
Qed.

Lemma loop2_balanced ls st :
  balanced (found st) -> balanced (found (fold_left step2 ls st)).
Proof.
  revert st; induction ls as [|l ls IH]; simpl; auto using step2_balanced.
Qed.

(** C3: after every turn of the loop, and so at its end, the per-rule counts
    add up to the errors plus the warnings, in both scripts. *)
Theorem rule_counts_sum_to_totals (result : CompletedProcess) (n : nat) :
  balanced
    (fold_left step1
       (firstn n (split newline (stdout result ++ stderr result)))
       no_findings)
  /\ balanced
       (found (fold_left step2 (firstn n (split newline (stderr result)))
                 start2))
  /\ balanced (analyze1 result)
  /\ balanced (analyze2 result).
Proof.
  repeat split.
  - apply loop1_balanced; reflexivity.
  - apply loop2_balanced; reflexivity.
  - apply loop1_balanced; reflexivity.
  - apply loop2_balanced; reflexivity.
Qed.

(** ** Only the standard error stream is read by the second script *)

(** C8: two runs with the same standard error text give the same aggregates
    in analyze-lint2.py, whatever the standard output texts are. *)
Theorem analyze2_ignores_stdout (out1 out2 err : text) :
  analyze2 {| stdout := out1; stderr := err |}
  = analyze2 {| stdout := out2; stderr := err |}.
Proof. reflexivity. Qed.

(** The first script does read it. *)
Example analyze1_reads_stdout :
  total_errors
    (analyze1 {| stdout := txt "/a/src/lib/x.ts 1:2 error m @s/r";
                 stderr := [] |}) = 1
  /\ total_errors (analyze1 {| stdout := []; stderr := [] |}) = 0.
Proof. split; vm_compute; reflexivity. Qed.

(** ** Lookups of the fixed groups *)

(** C7: a rule that is not a key of the rule counts is looked up as zero, the
    lookup being a total function; and with no output at all every group of
    either report shows the count 0. *)
Theorem missing_rule_counts_zero (st : Aggregates) (k : text)
    (Habsent : ~ In k (keys (errors_by_type st))) :
  get k 0 (errors_by_type st) = 0
  /\ group_counts (analyze1 silent) = [0; 0; 0; 0; 0]
  /\ group_counts (analyze2 silent) = [0; 0; 0; 0; 0]
  /\ group_lines1 (analyze1 silent)
     = [txt "  - Total: 0 errors"; txt "  - Total: 0 errors";
        txt "  - Total: 0 warnings"; txt "  - Total: 0 warnings";
        txt "  - Total: 0 errors"]
  /\ group_lines2 (analyze2 silent)
     = [txt "  - Count: 0 errors"; txt "  - Count: 0 errors";
        txt "  - Count: 0 warnings"; txt "  - Count: 0 warnings";
        txt "  - Count: 0 errors"].
Proof.
  split.
  - unfold get. apply lookup_None in Habsent. rewrite Habsent. reflexivity.
  - repeat split; vm_compute; reflexivity.
Qed.

Lemma missing_rule_counts_zero_witness :
  get (txt "react-refresh/only-export-components") 0
    (errors_by_type (analyze2 {| stdout := []; stderr := sample_block |})) = 0.
Proof.
  apply (missing_rule_counts_zero
           (analyze2 {| stdout := []; stderr := sample_block |})
           (txt "react-refresh/only-export-components")).
  vm_compute. intuition discriminate.
Defined.

(** ** The directory key *)

Lemma index_first (x : text) (before rest : list text) :
  ~ In x before -> index x (before ++ x :: rest) = Some (length before).
Proof.
  induction before as [|y before IH]; simpl; intros H.
  - rewrite text_eqb_refl; reflexivity.
  - destruct (text_eqb y x) eqn:E.
    + apply text_eqb_eq in E; tauto.
    + rewrite IH by tauto. reflexivity.
Qed.

Lemma existsb_src (x : text) (l : list text) :
  existsb (text_eqb x) l = true <-> In x l.
Proof.
  rewrite existsb_exists. split.
  - intros [y [Hy E]]. apply text_eqb_eq in E; subst; assumption.
  - intros H; exists x; split; [assumption | apply text_eqb_refl].
Qed.

Lemma directory_of_first_src (file_path : text) (before rest : list text)
    (d : text) :
  ~ In (txt "src") before ->
  parts file_path = before ++ txt "src" :: d :: rest ->
  directory_of file_path = Some d.
Proof.
  intros Hb Hp. unfold directory_of. rewrite Hp.
  replace (existsb _ _) with true
    by (symmetry; apply existsb_src, in_or_app; right; left; reflexivity).
  rewrite index_first by assumption.
  replace (_ <? _) with true
    by (symmetry; apply Nat.ltb_lt; rewrite length_app; simpl; lia).
  rewrite nth_error_app2 by lia.
  replace (length before + 1 - length before) with 1 by lia. reflexivity.
Qed.

Lemma directory_of_src_last (file_path : text) (before : list text) :
  ~ In (txt "src") before ->
  parts file_path = before ++ [txt "src"] ->
  directory_of file_path = None.
Proof.
  intros Hb Hp. unfold directory_of. rewrite Hp.
  destruct (existsb _ _); [|reflexivity].
  rewrite index_first by assumption.
  replace (_ <? _) with false; [reflexivity|].
  symmetry; apply Nat.ltb_ge. rewrite length_app; simpl; lia.
Qed.

Lemma directory_of_no_src (file_path : text) :
  ~ In (txt "src") (parts file_path) -> directory_of file_path = None.
Proof.
  intros H. unfold directory_of.
  destruct (existsb _ _) eqn:E; [|reflexivity].
  apply existsb_src in E; tauto.
Qed.

Lemma accumulate_by_directory file_path f st :
  errors_by_directory (accumulate file_path f st)
  = match directory_of file_path with
    | Some directory => incr directory (errors_by_directory st)
    | None => errors_by_directory st
    end.
Proof.
  unfold accumulate. destruct (text_eqb _ _); reflexivity.
Qed.

(** C9, as the claim states it, fails: the last component of this path is
    [src], and its findings count for the directory [lib]. *)
Lemma last_src_path_counts :
  last (parts (txt "/a/src/lib/src")) [] = txt "src"
  /\ directory_of (txt "/a/src/lib/src") = Some (txt "lib")
  /\ errors_by_directory
       (analyze2 {| stdout := [];
                    stderr := txt "/a/src/lib/src" ++ nl
                              ++ txt "  1:2  error  m  @s/r" |})
     = [(txt "lib", 1)].
Proof. repeat split; vm_compute; reflexivity. Qed.

(** C9, amended: with the components of a path as [Path.parts] gives them,
    the directory key is the component right after the first [src]; so a file
    right under that first [src] counts under its own name, a path whose
    first [src] is its last component counts for no directory, and so does a
    path without [src]. *)
Theorem directory_key_after_first_src (file_path : text)
    (before : list text) (f : Finding) (st : Aggregates)
    (Hfirst : ~ In (txt "src") before) :
  (forall d rest,
      parts file_path = before ++ txt "src" :: d :: rest ->
      directory_of file_path = Some d
      /\ errors_by_directory (accumulate file_path f st)
         = incr d (errors_by_directory st))
  /\ (forall name,
         parts file_path = before ++ [txt "src"; name] ->
         directory_of file_path = Some name)
  /\ (parts file_path = before ++ [txt "src"] ->
      directory_of file_path = None
      /\ errors_by_directory (accumulate file_path f st)
         = errors_by_directory st)
  /\ (parts file_path = before ->
      directory_of file_path = None
      /\ errors_by_directory (accumulate file_path f st)
         = errors_by_directory st).
Proof.
  repeat split.
  - eapply directory_of_first_src; eauto.
  - rewrite accumulate_by_directory.
    erewrite directory_of_first_src; eauto.
  - intros name H. eapply directory_of_first_src; eauto.
  - eapply directory_of_src_last; eauto.
  - rewrite accumulate_by_directory.
    erewrite directory_of_src_last; eauto.
  - apply directory_of_no_src; congruence.
  - rewrite accumulate_by_directory.
    rewrite directory_of_no_src; [reflexivity | congruence].
Qed.

Lemma directory_key_after_first_src_witness :
  directory_of (txt "/a/src/App.tsx") = Some (txt "App.tsx").
Proof.
  refine (proj1 (proj2 (directory_key_after_first_src
            (txt "/a/src/App.tsx") [txt "/"; txt "a"]
            {| line := []; column := []; severity := []; message := [];
               rule := [] |} no_findings _)) (txt "App.tsx") _).
  - vm_compute. intuition discriminate.
  - vm_compute. reflexivity.
Defined.

(** ** What a match tells about the subject *)

Section Sound.
Variable whole : text.

Lemma strip_prefix_Some (p s s' : text) :
  strip_prefix p s = Some s' -> s = p ++ s'.
Proof.
  revert s; induction p as [|x p IH]; intros [|y s]; simpl;
    try congruence.
  destruct (Ascii.eqb x y) eqn:E; [|discriminate].
  apply Ascii.eqb_eq in E; subst. intros H; f_equal; auto.
Qed.

Lemma taken_app (m s : text) : taken (m ++ s) s = m.
Proof.
  unfold taken. rewrite length_app.
  replace (length m + length s - length s) with (length m) by lia.
  rewrite firstn_app, firstn_all, Nat.sub_diag. simpl. apply app_nil_r.
Qed.

Lemma star_greedy_sound p s k res :
  star_greedy p s k = Some res ->
  exists m s', s = m ++ s' /\ all_in p m /\ k s' = Some res.
Proof.
  induction s as [|a s IH]; simpl; intros H.
  - exists [], []; repeat split; [constructor | assumption].
  - destruct (p a) eqn:Pa.
    + destruct (star_greedy p s k) eqn:E.
      * injection H as ->. destruct (IH eq_refl) as (m & s' & -> & Hm & Hk).
        exists (a :: m), s'; repeat split; [constructor|]; assumption.
      * exists [], (a :: s); repeat split; [constructor | assumption].
    + exists [], (a :: s); repeat split; [constructor | assumption].
Qed.

Lemma star_lazy_sound p s k res :
  star_lazy p s k = Some res ->
  exists m s', s = m ++ s' /\ all_in p m /\ k s' = Some res.
Proof.
  induction s as [|a s IH]; simpl; intros H.
  - destruct (k []) eqn:E; [|discriminate].
    exists [], []; repeat split; [constructor | congruence].
  - destruct (k (a :: s)) eqn:E.
    + exists [], (a :: s); repeat split; [constructor | congruence].
    + destruct (p a) eqn:Pa; [|discriminate].
      destruct (IH H) as (m & s' & -> & Hm & Hk).
      exists (a :: m), s'; repeat split; [constructor|]; assumption.
Qed.

Lemma run_sound r : forall s c k res,
  run whole r s c k = Some res ->
  exists m s' c',
    s = m ++ s' /\ Matches whole r m s' c c' /\ k s' c' = Some res.
Proof.
  induction r as [| |a|w|p|p|r1 IH1 r2 IH2|r1 IH1 r2 IH2|n r IHr];
    intros s c k res H; simpl in H.
  - destruct (length s =? length whole) eqn:E; [|discriminate].
    apply Nat.eqb_eq in E.
    exists [], s, c; repeat split; [constructor|]; assumption.
  - destruct s as [|a [|b s]]; try discriminate.
    + exists [], [], c; repeat split; [constructor; auto | assumption].
    + destruct (Ascii.eqb a newline) eqn:E; [|discriminate].
      apply Ascii.eqb_eq in E; subst.
      exists [], [newline], c; repeat split;
        [constructor; auto | assumption].
  - destruct s as [|b s]; [discriminate|].
    destruct (Ascii.eqb a b) eqn:E; [|discriminate].
    apply Ascii.eqb_eq in E; subst.
    exists [b], s, c; repeat split; [constructor | assumption].
  - destruct (strip_prefix w s) as [s'|] eqn:E; [|discriminate].
    apply strip_prefix_Some in E; subst.
    exists w, s', c; repeat split; [constructor | assumption].
  - destruct s as [|b s]; [discriminate|].
    destruct (p b) eqn:Pb; [|discriminate].
    apply star_greedy_sound in H. destruct H as (m & s' & -> & Hm & Hk).
    exists (b :: m), s', c; repeat split; [|assumption].
    constructor; [discriminate | constructor; assumption].
  - destruct s as [|b s]; [discriminate|].
    destruct (p b) eqn:Pb; [|discriminate].
    apply star_lazy_sound in H. destruct H as (m & s' & -> & Hm & Hk).
    exists (b :: m), s', c; repeat split; [|assumption].
    constructor; [discriminate | constructor; assumption].
  - destruct (run whole r1 s c k) eqn:E.
    + injection H as ->. apply IH1 in E.
      destruct E as (m & s' & c' & -> & Hm & Hk).
      exists m, s', c'; repeat split; [apply M_AltL|]; assumption.
    + apply IH2 in H. destruct H as (m & s' & c' & -> & Hm & Hk).
      exists m, s', c'; repeat split; [apply M_AltR|]; assumption.
  - apply IH1 in H. destruct H as (m1 & s1 & c1 & -> & Hm1 & H).
    apply IH2 in H. destruct H as (m2 & s2 & c2 & -> & Hm2 & Hk).
    exists (m1 ++ m2), s2, c2; repeat split;
      [apply app_assoc | econstructor; eassumption | assumption].
  - apply IHr in H. destruct H as (m & s' & c' & -> & Hm & Hk).
    rewrite taken_app in Hk.
    exists m, s', ((n, m) :: c'); repeat split; [constructor|]; assumption.
Qed.
End Sound.

Lemma re_match_sound (pattern : regex) (s : text) (res : captures) :
  re_match pattern s = Some res ->
  exists m s', s = m ++ s' /\ Matches s pattern m s' [] res.
Proof.
  unfold re_match; intros H. apply run_sound in H.
  destruct H as (m & s' & c' & -> & Hm & Hk). injection Hk as ->.
  exists m, s'; split; [reflexivity | assumption].
Qed.

(** ** The shape of a parsed line *)

Ltac inv_matches :=
  repeat match goal with
  | H : Matches _ (Seq _ _) _ _ _ _ |- _ => inversion H; subst; clear H
  | H : Matches _ (Group _ _) _ _ _ _ |- _ => inversion H; subst; clear H
  | H : Matches _ (Lit _) _ _ _ _ |- _ => inversion H; subst; clear H
  | H : Matches _ (Plus _) _ _ _ _ |- _ => inversion H; subst; clear H
  | H : Matches _ (PlusLazy _) _ _ _ _ |- _ => inversion H; subst; clear H
  | H : Matches _ (Word _) _ _ _ _ |- _ => inversion H; subst; clear H
  | H : Matches _ Bol _ _ _ _ |- _ => inversion H; subst; clear H
  | H : Matches _ Eol _ _ _ _ |- _ => inversion H; subst; clear H
  | H : Matches _ (Alt _ _) _ _ _ _ |- _ => inversion H; subst; clear H
  end.

Lemma ends_in_refl t : ends_in t t.
Proof. exists []; reflexivity. Qed.

Lemma ends_in_app x t s : ends_in t s -> ends_in t (x ++ s).
Proof. intros [b ->]. exists (x ++ b). apply app_assoc. Qed.

Lemma ends_in_cons x t s : ends_in t s -> ends_in t (x :: s).
Proof. apply (ends_in_app [x]). Qed.

Ltac find_ending :=
  rewrite <- ?app_assoc; cbn [app];
  repeat first [apply ends_in_refl | apply ends_in_app | apply ends_in_cons].

Lemma error_pattern_shape s res :
  re_match error_pattern s = Some res ->
  exists path ln col sev msg r tail,
    res = [(6, r); (5, msg); (4, sev); (3, col); (2, ln); (1, path)]
    /\ is_rule_id r /\ ends_in (r ++ tail) s
    /\ (tail = [] \/ tail = [newline])
    /\ (sev = txt "error" \/ sev = txt "warning")
    /\ startswith (txt "/") s = true.
Proof.
  intros H. apply re_match_sound in H. destruct H as (m & s' & E & H).
  unfold error_pattern, rule_re, severity_re in H. cbn [seqs] in H.
  inv_matches.
  - do 7 eexists. split; [reflexivity|]. split.
    { eexists _, _. repeat split; eauto. }
    split; [find_ending|].
    split; [eassumption | split; [left|]; reflexivity].
  - do 7 eexists. split; [reflexivity|]. split.
    { eexists _, _. repeat split; eauto. }
    split; [find_ending|].
    split; [eassumption | split; [right|]; reflexivity].
Qed.

Lemma finding_pattern_shape s res :
  re_match finding_pattern s = Some res ->
  exists ln col sev msg r tail,
    res = [(5, r); (4, msg); (3, sev); (2, col); (1, ln)]
    /\ is_rule_id r /\ ends_in (r ++ tail) s
    /\ (tail = [] \/ tail = [newline])
    /\ (sev = txt "error" \/ sev = txt "warning").
Proof.
  intros H. apply re_match_sound in H. destruct H as (m & s' & E & H).
  unfold finding_pattern, rule_re, severity_re in H. cbn [seqs] in H.
  inv_matches.
  - do 6 eexists. split; [reflexivity|]. split.
    { eexists _, _. repeat split; eauto. }
    split; [|split; [eassumption | left; reflexivity]].
    find_ending.
  - do 6 eexists. split; [reflexivity|]. split.
    { eexists _, _. repeat split; eauto. }
    split; [|split; [eassumption | right; reflexivity]].
    find_ending.
Qed.

(** ** Stripping *)

Lemma rule_char_not_space (c : ascii) :
  rule_char c = true -> is_space c = false.
Proof.
  destruct c as [b0 b1 b2 b3 b4 b5 b6 b7].
  destruct b0, b1, b2, b3, b4, b5, b6, b7; vm_compute; congruence.
Qed.

Lemma lstrip_all_spaces (ws : text) : all_in is_space ws -> lstrip ws = [].
Proof.
  induction 1 as [|c ws Hc _ IH]; simpl; [reflexivity|].
  rewrite Hc; assumption.
Qed.

Lemma lstrip_spaces (ws s : text) :
  all_in is_space ws -> lstrip (ws ++ s) = lstrip s.
Proof.
  induction 1 as [|c ws Hc _ IH]; simpl; [reflexivity|].
  rewrite Hc; assumption.
Qed.

Lemma lstrip_app_spaces (l ws : text) :
  all_in is_space ws ->
  lstrip (l ++ ws) = lstrip l ++ ws \/ (lstrip l = [] /\ lstrip (l ++ ws) = []).
Proof.
  intros Hws. induction l as [|c l IH]; simpl.
  - right; split; [reflexivity | apply lstrip_all_spaces; assumption].
  - destruct (is_space c); [assumption | left; reflexivity].
Qed.

Lemma all_in_rev p (m : text) : all_in p m -> all_in p (rev m).
Proof. apply Forall_rev. Qed.

Lemma rstrip_spaces (s ws : text) :
  all_in is_space ws -> rstrip (s ++ ws) = rstrip s.
Proof.
  intros Hws. unfold rstrip. rewrite rev_app_distr.
  rewrite lstrip_spaces by (apply all_in_rev; assumption). reflexivity.
Qed.

Lemma strip_pad (ws1 l ws2 : text) :
  all_in is_space ws1 -> all_in is_space ws2 ->
  strip (ws1 ++ l ++ ws2) = strip l.
Proof.
  intros H1 H2. unfold strip. rewrite lstrip_spaces by assumption.
  destruct (lstrip_app_spaces l H2) as [E | [E1 E2]].
  - rewrite E. apply rstrip_spaces; assumption.
  - rewrite E1, E2. reflexivity.
Qed.

Lemma lstrip_split (s : text) :
  exists ws, all_in is_space ws /\ s = ws ++ lstrip s.
Proof.
  induction s as [|c s (ws & Hws & E)]; simpl.
  - exists []; split; [constructor | reflexivity].
  - destruct (is_space c) eqn:Hc.
    + exists (c :: ws); split; [constructor; assumption|].
      simpl; f_equal; assumption.
    + exists []; split; [constructor | reflexivity].
Qed.

Lemma rstrip_split (s : text) :
  exists ws, all_in is_space ws /\ s = rstrip s ++ ws.
Proof.
  destruct (lstrip_split (rev s)) as (ws & Hws & E).
  exists (rev ws); split; [apply all_in_rev; assumption|].
  unfold rstrip. rewrite <- rev_app_distr, <- E. symmetry; apply rev_involutive.
Qed.

Lemma strip_split (s : text) :
  exists ws1 ws2,
    all_in is_space ws1 /\ all_in is_space ws2 /\ s = ws1 ++ strip s ++ ws2.
Proof.
  destruct (lstrip_split s) as (ws1 & H1 & E1).
  destruct (rstrip_split (lstrip s)) as (ws2 & H2 & E2).
  exists ws1, ws2; repeat split; try assumption.
  unfold strip. rewrite <- E2. assumption.
Qed.

Lemma strip_strip (s : text) : strip (strip s) = strip s.
Proof.
  destruct (strip_split s) as (ws1 & ws2 & H1 & H2 & E).
  rewrite E at 2. symmetry. apply strip_pad; assumption.
Qed.

Lemma lstrip_keeps_ending (c : ascii) (x s : text) :
  is_space c = false -> ends_in (c :: x) s -> ends_in (c :: x) (lstrip s).
Proof.
  intros Hc [before ->]. induction before as [|b before IH]; simpl.
  - rewrite Hc. apply ends_in_refl.
  - destruct (is_space b); [assumption|].
    apply (ends_in_app (b :: before)), ends_in_refl.
Qed.

Lemma rstrip_nonspace_end (x : text) (d : ascii) :
  is_space d = false -> rstrip (x ++ [d]) = x ++ [d].
Proof.
  intros Hd. unfold rstrip. rewrite rev_unit. simpl. rewrite Hd.
  simpl. rewrite rev_involutive. reflexivity.
Qed.

Lemma strip_keeps_ending (c d : ascii) (x y ws s : text) :
  is_space c = false -> is_space d = false -> c :: x = y ++ [d] ->
  all_in is_space ws ->
  ends_in ((c :: x) ++ ws) s -> ends_in (c :: x) (strip s).
Proof.
  intros Hc Hd E Hws H.
  apply (lstrip_keeps_ending (x := x ++ ws) Hc) in H.
  destruct H as [before H]. unfold strip. rewrite H.
  change (before ++ c :: x ++ ws) with (before ++ (c :: x) ++ ws).
  rewrite app_assoc, rstrip_spaces by assumption.
  rewrite E, app_assoc, rstrip_nonspace_end by assumption.
  rewrite <- app_assoc. exists before; reflexivity.
Qed.

Lemma rule_id_ends (r : text) :
  is_rule_id r ->
  exists c d x y,
    r = c :: x /\ r = y ++ [d] /\ is_space c = false /\ is_space d = false.
Proof.
  intros (a & b & -> & Ha & Hb & Hra & Hrb).
  destruct (exists_last Hb) as (b' & d & ->).
  exists "@"%char, d, (a ++ ["/"%char] ++ b' ++ [d]),
    (["@"%char] ++ a ++ ["/"%char] ++ b').
  repeat split.
  - rewrite <- !app_assoc. reflexivity.
  - apply rule_char_not_space.
    apply Forall_app in Hrb. destruct Hrb as [_ Hd].
    inversion Hd; assumption.
Qed.

Lemma strip_keeps_rule (r tail s : text) :
  is_rule_id r -> tail = [] \/ tail = [newline] ->
  ends_in (r ++ tail) s -> ends_in r (strip s).
Proof.
  intros Hr Ht H.
  destruct (rule_id_ends Hr) as (c & d & x & y & E1 & E2 & Hc & Hd).
  subst r. eapply strip_keeps_ending; eauto.
  destruct Ht as [-> | ->]; repeat constructor.
Qed.

(** ** Lines that end with a rule identifier *)

Lemma span_app p (m rest : text) :
  all_in p m ->
  match rest with [] => True | c :: _ => p c = false end ->
  span p (m ++ rest) = (m, rest).
Proof.
  intros Hm Hrest. induction Hm as [|c m Hc _ IH]; simpl.
  - destruct rest as [|c rest]; [reflexivity|]. simpl.
    rewrite Hrest; reflexivity.
  - rewrite Hc, IH. reflexivity.
Qed.

Lemma span_spec p (s m rest : text) :
  span p s = (m, rest) -> s = m ++ rest /\ all_in p m.
Proof.
  revert m rest; induction s as [|c s IH]; simpl; intros m rest H.
  - injection H as <- <-. split; [reflexivity | constructor].
  - destruct (p c) eqn:Hc.
    + destruct (span p s) as [m' r'] eqn:E. injection H as <- <-.
      destruct (IH _ _ eq_refl) as [-> Hm].
      split; [reflexivity | constructor; assumption].
    + injection H as <- <-. split; [reflexivity | constructor].
Qed.

Lemma rev_nonempty (m : text) : m <> [] -> rev m <> [].
Proof.
  intros H E. apply H. rewrite <- (rev_involutive m), E. reflexivity.
Qed.

Lemma ends_with_rule_complete (r s : text) :
  is_rule_id r -> ends_in r s -> ends_with_rule s = true.
Proof.
  intros (a & b & -> & Ha & Hb & Hra & Hrb) [before ->].
  unfold ends_with_rule.
  rewrite !rev_app_distr. simpl. rewrite <- !app_assoc. simpl.
  rewrite span_app by (try apply all_in_rev; auto).
  destruct (rev b) eqn:Eb; [exfalso; revert Eb; apply rev_nonempty, Hb|].
  rewrite span_app by (try apply all_in_rev; auto).
  destruct (rev a) eqn:Ea; [exfalso; revert Ea; apply rev_nonempty, Ha|].
  reflexivity.
Qed.

Lemma ends_with_rule_sound (s : text) :
  ends_with_rule s = true -> exists r, is_rule_id r /\ ends_in r s.
Proof.
  unfold ends_with_rule; intros H.
  destruct (span rule_char (rev s)) as [m1 rest1] eqn:E1.
  destruct m1 as [|c1 m1]; [discriminate|].
  destruct rest1 as [|x rest1]; [discriminate|].
  destruct (Ascii.eqb_spec x "/"%char) as [->|Hx];
    [|destruct x as [[] [] [] [] [] [] [] []]; congruence].
  destruct (span rule_char rest1) as [m2 rest2] eqn:E2.
  destruct m2 as [|c2 m2];
    [destruct rest2 as [|[[] [] [] [] [] [] [] []] ?]; discriminate|].
  destruct rest2 as [|y rest2]; [discriminate|].
  destruct (Ascii.eqb_spec y "@"%char) as [->|Hy];
    [|destruct y as [[] [] [] [] [] [] [] []]; congruence].
  apply span_spec in E1, E2. destruct E1 as [E1 H1], E2 as [E2 H2].
  exists (["@"%char] ++ rev (c2 :: m2) ++ ["/"%char] ++ rev (c1 :: m1)).
  split.
  - exists (rev (c2 :: m2)), (rev (c1 :: m1)).
    repeat split; try (apply rev_nonempty; discriminate);
      apply all_in_rev; assumption.
  - exists (rev rest2).
    rewrite <- (rev_involutive s), E1, E2.
    rewrite !rev_app_distr. simpl. rewrite !rev_app_distr. simpl.
    rewrite <- !app_assoc. reflexivity.
Qed.

(** ** Lines without a finding *)

Lemma parse_flat_rule (l file_path : text) (f : Finding) :
  parse_flat l = Some (file_path, f) ->
  is_rule_id (rule f) /\ ends_in (rule f) (strip l)
  /\ (severity f = txt "error" \/ severity f = txt "warning")
  /\ startswith (txt "/") (strip l) = true.
Proof.
  unfold parse_flat; intros H.
  destruct (re_match error_pattern (strip l)) as [m|] eqn:E; [|discriminate].
  apply error_pattern_shape in E.
  destruct E as (p & ln & col & sev & msg & r & tail
                 & -> & Hr & He & Ht & Hs & Hp).
  cbn in H. injection H as <- <-. cbn. repeat split; try assumption.
  rewrite <- strip_strip. eapply strip_keeps_rule; eauto.
Qed.

Lemma parse_block_rule (l : text) (f : Finding) :
  parse_block l = Some f ->
  is_rule_id (rule f) /\ ends_in (rule f) (strip l)
  /\ (severity f = txt "error" \/ severity f = txt "warning").
Proof.
  unfold parse_block; intros H.
  destruct (re_match head_pattern l); [|discriminate].
  destruct (re_match finding_pattern l) as [m|] eqn:E; [|discriminate].
  apply finding_pattern_shape in E.
  destruct E as (ln & col & sev & msg & r & tail & -> & Hr & He & Ht & Hs).
  cbn in H. injection H as <-. cbn. repeat split; try assumption.
  eapply strip_keeps_rule; eauto.
Qed.

Lemma parse_flat_no_rule (l : text) :
  ends_with_rule (strip l) = false -> parse_flat l = None.
Proof.
  intros H. destruct (parse_flat l) as [[p f]|] eqn:E; [|reflexivity].
  apply parse_flat_rule in E. destruct E as (Hr & He & _).
  rewrite (ends_with_rule_complete Hr He) in H. discriminate.
Qed.

Lemma parse_block_no_rule (l : text) :
  ends_with_rule (strip l) = false -> parse_block l = None.
Proof.
  intros H. destruct (parse_block l) as [f|] eqn:E; [|reflexivity].
  apply parse_block_rule in E. destruct E as (Hr & He & _).
  rewrite (ends_with_rule_complete Hr He) in H. discriminate.
Qed.

Lemma parse_flat_no_entry (l : text) :
  starts_entry l = false -> parse_flat l = None.
Proof.
  unfold starts_entry; intros H. apply orb_false_iff in H. destruct H as [H _].
  destruct (parse_flat l) as [[p f]|] eqn:E; [|reflexivity].
  apply parse_flat_rule in E. destruct E as (_ & _ & _ & Hp). congruence.
Qed.

Lemma parse_block_no_entry (l : text) :
  starts_entry l = false -> parse_block l = None.
Proof.
  unfold starts_entry, parse_block; intros H.
  apply orb_false_iff in H. destruct H as [_ H].
  destruct (re_match head_pattern l); [discriminate | reflexivity].
Qed.

Lemma step2_found (st : Cursor) (l : text) :
  parse_block l = None -> found (step2 st l) = found st.
Proof.
  unfold step2; intros H. rewrite H.
  destruct (is_file_line l); [reflexivity|].
  destruct (truthy (current_file st)); reflexivity.
Qed.

Lemma skip_lines1 (ls : list text) (st : Aggregates) :
  Forall (fun l => parse_flat l = None) ls -> fold_left step1 ls st = st.
Proof.
  induction 1 as [|l ls Hl _ IH]; simpl; [reflexivity|].
  unfold step1 at 2. rewrite Hl. assumption.
Qed.

Lemma skip_lines2 (ls : list text) (st : Cursor) :
  Forall (fun l => parse_block l = None) ls ->
  found (fold_left step2 ls st) = found st.
Proof.
  intros H; revert st. induction H as [|l ls Hl _ IH]; intros st; simpl;
    [reflexivity|].
  rewrite IH. apply step2_found; assumption.
Qed.

(** C6: an entry whose first physical line does not end with the rule
    identifier, followed by continuation lines that start no entry of their
    own, changes no aggregate: nothing is counted for it by either script,
    and the loops go on. *)
Theorem wrapped_finding_is_dropped (head : text) (continuation : list text)
    (st1 : Aggregates) (st2 : Cursor)
    (Hhead : ends_with_rule (strip head) = false)
    (Hcont : forallb (fun l => negb (starts_entry l)) continuation = true) :
  fold_left step1 (head :: continuation) st1 = st1
  /\ found (fold_left step2 (head :: continuation) st2) = found st2.
Proof.
  assert (Hc : Forall (fun l => starts_entry l = false) continuation).
  { apply Forall_forall; intros l Hl.
    rewrite forallb_forall in Hcont. apply negb_true_iff, Hcont, Hl. }
  split.
  - apply skip_lines1. constructor; [apply parse_flat_no_rule, Hhead|].
    eapply Forall_impl; [|exact Hc]. apply parse_flat_no_entry.
  - apply skip_lines2. constructor; [apply parse_block_no_rule, Hhead|].
    eapply Forall_impl; [|exact Hc]. apply parse_block_no_entry.
Qed.

Lemma wrapped_finding_is_dropped_witness :
  let head :=
    txt "  835:6  warning  React Hook useCallback has missing dependencies: 'a'," in
  let continuation :=
    [txt "    'b', and 'c'. Either include them or remove the array  @scope/exhaustive-deps"] in
  let st2 :=
    scan2 (txt "/a/src/lib/x.ts" ++ nl ++ txt "  1:2  error  m  @s/r") in
  fold_left step1 (head :: continuation) (found st2) = found st2
  /\ found (fold_left step2 (head :: continuation) st2) = found st2.
Proof.
  intros head continuation st2.
  apply (wrapped_finding_is_dropped head continuation (found st2) st2);
    vm_compute; reflexivity.
Defined.

(** ** White space around a line *)

Lemma forallb_all_in p (m : text) : forallb p m = true -> all_in p m.
Proof.
  intros H. apply Forall_forall. apply forallb_forall. assumption.
Qed.

(** C10: analyze-lint.py strips a line before it matches it, so white space
    added in front of a line or after it changes neither whether the line
    parses nor the finding, and an indented flat line is parsed. *)
Theorem surrounding_whitespace_is_ignored (ws1 l ws2 : text)
    (st : Aggregates)
    (H1 : forallb is_space ws1 = true) (H2 : forallb is_space ws2 = true) :
  parse_flat (ws1 ++ l ++ ws2) = parse_flat l
  /\ step1 st (ws1 ++ l ++ ws2) = step1 st l
  /\ parse_flat (txt "    /a/src/lib/x.ts 1:2 error m @s/r  ")
     = Some (txt "/a/src/lib/x.ts",
             {| line := txt "1"; column := txt "2"; severity := txt "error";
                message := txt "m"; rule := txt "@s/r" |}).
Proof.
  assert (E : parse_flat (ws1 ++ l ++ ws2) = parse_flat l).
  { unfold parse_flat. rewrite strip_pad by (apply forallb_all_in; assumption).
    reflexivity. }
  split; [exact E|]. split; [unfold step1; rewrite E; reflexivity|].
  vm_compute. reflexivity.
Qed.

Lemma surrounding_whitespace_is_ignored_witness :
  parse_flat (txt "  " ++ flat_line ++ [" "%char; "009"%char])
  = parse_flat flat_line.
Proof.
  apply (surrounding_whitespace_is_ignored (txt "  ") flat_line
           [" "%char; "009"%char] no_findings); vm_compute; reflexivity.
Defined.

(** ** Rule identifiers have a scope *)

Lemma rule_id_scoped (r : text) : is_rule_id r -> scoped r = true.
Proof. intros (a & b & -> & _). reflexivity. Qed.

Lemma keys_update V (P : text -> Prop) (k : text) (f : option V -> V)
    (d : dict V) :
  P k -> Forall P (keys d) -> Forall P (keys (update k f d)).
Proof.
  intros Hk. induction d as [|[k' v] d IH]; simpl; intros H.
  - repeat constructor; assumption.
  - inversion H; subst. destruct (text_eqb k k'); simpl; constructor; auto.
Qed.

Lemma findings_append_to (P : text * Finding -> Prop) (k : text)
    (f : Finding) (d : dict (list Finding)) :
  P (k, f) ->
  Forall P (flat_map (fun item => map (pair (fst item)) (snd item)) d) ->
  Forall P
    (flat_map (fun item => map (pair (fst item)) (snd item))
       (append_to k f d)).
Proof.
  intros Hk. unfold append_to.
  induction d as [|[k' v] d IH]; simpl; intros H.
  - repeat constructor; assumption.
  - apply Forall_app in H. destruct H as [Hv Hd].
    destruct (text_eqb k k') eqn:E; simpl; apply Forall_app; split; auto.
    apply text_eqb_eq in E; subst k'.
    rewrite map_app. apply Forall_app; split; [assumption|].
    repeat constructor; assumption.
Qed.

Lemma accumulate_scoped file_path f st :
  scoped (rule f) = true -> scoped_state st ->
  scoped_state (accumulate file_path f st).
Proof.
  intros Hf [Hk Hx]. unfold scoped_state, accumulate, findings.
  destruct (text_eqb (severity f) (txt "error")); simpl; split;
    try (apply keys_update; assumption);
    apply findings_append_to; assumption.
Qed.

Lemma loop1_scoped ls st :
  scoped_state st -> scoped_state (fold_left step1 ls st).
Proof.
  revert st; induction ls as [|l ls IH]; simpl; intros st H; [assumption|].
  apply IH. unfold step1.
  destruct (parse_flat l) as [[p f]|] eqn:E; [|assumption].
  apply accumulate_scoped; [|assumption].
  apply rule_id_scoped. apply (parse_flat_rule _ E).
Qed.

Lemma loop2_scoped ls st :
  scoped_state (found st) -> scoped_state (found (fold_left step2 ls st)).
Proof.
  revert st; induction ls as [|l ls IH]; simpl; intros st H; [assumption|].
  apply IH. unfold step2.
  destruct (is_file_line l); [assumption|].
  destruct (truthy (current_file st)); [|assumption].
  destruct (parse_block l) as [f|] eqn:E; [|assumption].
  apply accumulate_scoped; [|assumption].
  apply rule_id_scoped. apply (parse_block_rule _ E).
Qed.

(** C2 does not hold of the code: whatever the lint command prints, every
    rule identifier that either script records starts with [@]; the lines of
    the script's own sample with the rule [react-hooks/exhaustive-deps] give
    no finding, and the hooks group of the report shows zero for them. *)
Theorem unscoped_rule_never_parsed (result : CompletedProcess) :
  scoped_state (analyze1 result)
  /\ scoped_state (analyze2 result)
  /\ analyze2 {| stdout := []; stderr := hooks_block |} = no_findings
  /\ analyze1 {| stdout := hooks_block; stderr := [] |} = no_findings
  /\ react_hooks_total (analyze2 {| stdout := []; stderr := hooks_block |})
     = 0.
Proof.
  split; [|split].
  - apply loop1_scoped. split; constructor.
  - apply loop2_scoped. split; constructor.
  - repeat split; vm_compute; reflexivity.
Qed.

(** ** The example line of the specification *)

(** C1, as the claim states it, fails: the colon line gives no finding. *)
Lemma colon_line_not_parsed :
  ~ exists file f,
      findings (analyze1 {| stdout := colon_line; stderr := [] |})
      = [(file, f)]
      /\ rule f = txt "@typescript-eslint/no-explicit-any"
      /\ severity f = txt "error"
      /\ directory_of file = Some (txt "components").
Proof.
  assert (E : findings (analyze1 {| stdout := colon_line; stderr := [] |})
              = []) by (vm_compute; reflexivity).
  intros (file & f & H & _). rewrite E in H. discriminate.
Qed.

(** C1, amended: with white space between the path and the position, the
    line gives exactly one finding, of rule
    [@typescript-eslint/no-explicit-any] and severity [error], counted for
    the directory [components]; the line with the colon gives none, in either
    script. *)
Theorem flat_line_one_finding :
  findings (analyze1 {| stdout := flat_line; stderr := [] |})
  = [(txt "/a/b/src/components/Foo.tsx",
      {| line := txt "12"; column := txt "3"; severity := txt "error";
         message := txt "Unexpected any. Specify a different type";
         rule := txt "@typescript-eslint/no-explicit-any" |})]
  /\ directory_of (txt "/a/b/src/components/Foo.tsx")
     = Some (txt "components")
  /\ errors_by_directory (analyze1 {| stdout := flat_line; stderr := [] |})
     = [(txt "components", 1)]
  /\ errors_by_type (analyze1 {| stdout := flat_line; stderr := [] |})
     = [(txt "@typescript-eslint/no-explicit-any", 1)]
  /\ total_errors (analyze1 {| stdout := flat_line; stderr := [] |}) = 1
  /\ total_warnings (analyze1 {| stdout := flat_line; stderr := [] |}) = 0
  /\ analyze1 {| stdout := colon_line; stderr := [] |} = no_findings
  /\ analyze2 {| stdout := []; stderr := colon_line |} = no_findings.
Proof. repeat split; vm_compute; reflexivity. Qed.

(** ** The file of a finding in the block shape *)

Lemma is_file_line_slash (l : text) :
  is_file_line l = startswith (txt "/") l.
Proof.
  destruct l as [|c l]; [reflexivity|].
  unfold is_file_line, startswith, txt.
  cbn [list_ascii_of_string strip_prefix text_eqb negb andb].
  destruct (Ascii.eqb_spec "/"%char c) as [<-|Hc]; reflexivity.
Qed.

Lemma space_not_slash (c : ascii) :
  is_space c = true -> Ascii.eqb "/"%char c = false.
Proof.
  intros H. destruct (Ascii.eqb_spec "/"%char c) as [<-|]; [|reflexivity].
  vm_compute in H. discriminate.
Qed.

Lemma finding_pattern_indented s res :
  re_match finding_pattern s = Some res -> startswith (txt "/") s = false.
Proof.
  intros H. apply re_match_sound in H. destruct H as (m & s' & E & H).
  unfold finding_pattern, rule_re, severity_re in H. cbn [seqs] in H.
  inv_matches; cbn [app];
    match goal with
    | |- startswith _ ((?m ++ _) ++ _) = false =>
        destruct m as [|c m]; [congruence|];
        match goal with
        | A : all_in is_space (c :: m) |- _ =>
            inversion A; subst; unfold startswith, txt;
            cbn [list_ascii_of_string strip_prefix app];
            rewrite space_not_slash by assumption; reflexivity
        end
    end.
Qed.

Lemma parse_block_indented (l : text) (f : Finding) :
  parse_block l = Some f -> is_file_line l = false.
Proof.
  unfold parse_block; intros H. rewrite is_file_line_slash.
  destruct (re_match head_pattern l); [|discriminate].
  destruct (re_match finding_pattern l) eqn:E; [|discriminate].
  eapply finding_pattern_indented; eassumption.
Qed.

Lemma strip_slash (l : text) :
  startswith (txt "/") l = true -> exists y, strip l = "/"%char :: y.
Proof.
  destruct l as [|c l]; [discriminate|]. unfold startswith, txt.
  cbn [list_ascii_of_string strip_prefix].
  destruct (Ascii.eqb_spec "/"%char c) as [<-|]; [intros _ | discriminate].
  unfold strip. simpl lstrip.
  destruct (rstrip_split ("/"%char :: l)) as (ws & Hws & E).
  destruct (rstrip ("/"%char :: l)) as [|d y].
  - simpl in E. subst ws. inversion Hws; discriminate.
  - injection E as <- _. exists y; reflexivity.
Qed.

Lemma nearest_file_path_last (before : list text) (l : text) :
  nearest_file_path (before ++ [l])
  = if is_file_line l then Some (strip l) else nearest_file_path before.
Proof.
  unfold nearest_file_path. rewrite rev_unit, is_file_line_slash.
  cbn [find]. destruct (startswith (txt "/") l); reflexivity.
Qed.

Lemma nearest_file_path_truthy (before : list text) :
  truthy (nearest_file_path before) = nearest_file_path before.
Proof.
  unfold nearest_file_path.
  destruct (find (startswith (txt "/")) (rev before)) as [l|] eqn:E;
    [|reflexivity].
  apply find_some in E. destruct E as [_ E].
  destruct (strip_slash _ E) as [y Hy]. simpl. rewrite Hy. reflexivity.
Qed.

Lemma cursor_is_nearest_file_path (before : list text) :
  current_file (fold_left step2 before start2) = nearest_file_path before.
Proof.
  induction before as [|l before IH] using rev_ind; [reflexivity|].
  rewrite fold_left_app, nearest_file_path_last. simpl. unfold step2.
  destruct (is_file_line l); [reflexivity|].
  destruct (truthy _); [|assumption].
  destruct (parse_block l); assumption.
Qed.

Lemma accumulate_by_file file_path f st :
  errors_by_file (accumulate file_path f st)
  = append_to file_path f (errors_by_file st).
Proof. unfold accumulate. destruct (text_eqb _ _); reflexivity. Qed.

Lemma lookup_append_to V (k : text) (x : V) (d : dict (list V)) :
  lookup k (append_to k x d) = Some (get k [] d ++ [x]).
Proof.
  unfold append_to, get. induction d as [|[k' v] d IH]; simpl.
  - rewrite text_eqb_refl. reflexivity.
  - destruct (text_eqb k k') eqn:E; simpl; rewrite E; [reflexivity|].
    exact IH.
Qed.

(** C5: in analyze-lint2.py the cursor is the nearest un-indented line
    before that starts with a slash; a line that parses as a finding is
    accumulated under that file path and appended to its findings, and
    without such a line before it, or when it does not parse, nothing is
    recorded. *)
Theorem finding_goes_to_nearest_file (before : list text) (l : text) :
  let st := fold_left step2 before start2 in
  current_file st = nearest_file_path before
  /\ match parse_block l, nearest_file_path before with
     | Some f, Some file =>
         found (step2 st l) = accumulate file f (found st)
         /\ lookup file (errors_by_file (found (step2 st l)))
            = Some (get file [] (errors_by_file (found st)) ++ [f])
     | _, _ => found (step2 st l) = found st
     end.
Proof.
  intros st. pose proof (cursor_is_nearest_file_path before) as Hc.
  fold st in Hc. split; [exact Hc|].
  unfold step2. rewrite Hc, nearest_file_path_truthy.
  destruct (parse_block l) as [f|] eqn:E.
  - rewrite (parse_block_indented _ E).
    destruct (nearest_file_path before) as [file|]; [|reflexivity].
    simpl. split; [reflexivity|].
    rewrite accumulate_by_file. apply lookup_append_to.
  - destruct (is_file_line l); [reflexivity|].
    destruct (nearest_file_path before); reflexivity.
Qed.

Example finding_before_any_file_is_dropped :
  analyze2 {| stdout := [];
              stderr := txt "  1:2  error  m  @s/r" ++ nl
                        ++ txt "/a/src/lib/x.ts" ++ nl
                        ++ txt "  3:4  warning  n  @s/q" |}
  = accumulate (txt "/a/src/lib/x.ts")
      {| line := txt "3"; column := txt "4"; severity := txt "warning";
         message := txt "n"; rule := txt "@s/q" |} no_findings.
Proof. vm_compute. reflexivity. Qed.

(** ** The ranking *)

Lemma precedes_index (a b : text) (l : list text) : forall i j,
  a <> b -> index a l = Some i -> index b l = Some j ->
  (precedes a b l = true <-> i < j).
Proof.
  induction l as [|x l IH]; simpl; intros i j Hab Hi Hj; [discriminate|].
  destruct (text_eqb x a) eqn:Ea.
  - apply text_eqb_eq in Ea; subst x.
    replace (text_eqb a b) with false in Hj
      by (symmetry; apply text_eqb_neq; assumption).
    injection Hi as <-. destruct (index b l); [|discriminate].
    injection Hj as <-. split; [lia | reflexivity].
  - destruct (index a l) as [i'|]; [|discriminate]. injection Hi as <-.
    destruct (text_eqb x b) eqn:Eb.
    + injection Hj as <-. split; [discriminate | lia].
    + destruct (index b l) as [j'|]; [|discriminate]. injection Hj as <-.
      rewrite (IH i' j' Hab eq_refl eq_refl). lia.
Qed.

Lemma precedes_skip (a b r : text) (l rest : list text) :
  r <> a -> r <> b ->
  precedes a b (l ++ r :: rest) = precedes a b (l ++ rest).
Proof.
  intros Ha Hb. induction l as [|x l IH]; simpl.
  - apply text_eqb_neq in Ha, Hb. rewrite Ha, Hb. reflexivity.
  - rewrite IH. reflexivity.
Qed.

Lemma precedes_again (a b r : text) (l rest : list text) :
  In r l -> precedes a b (l ++ r :: rest) = precedes a b (l ++ rest).
Proof.
  induction l as [|x l IH]; simpl; intros H; [contradiction|].
  destruct (text_eqb x a) eqn:Ea; [reflexivity|].
  destruct (text_eqb x b) eqn:Eb; [reflexivity|].
  destruct H as [->|H]; [|auto].
  apply precedes_skip; apply text_eqb_neq; assumption.
Qed.

Lemma keys_incr_old (r : text) (d : dict nat) :
  In r (keys d) -> keys (incr r d) = keys d.
Proof.
  unfold incr. induction d as [|[k v] d IH]; simpl; intros H; [contradiction|].
  destruct (text_eqb r k) eqn:E; [reflexivity|]. simpl. f_equal.
  apply IH. destruct H as [H|H]; [|assumption].
  apply text_eqb_neq in E. congruence.
Qed.

Lemma keys_incr_new (r : text) (d : dict nat) :
  ~ In r (keys d) -> keys (incr r d) = keys d ++ [r].
Proof.
  unfold incr. induction d as [|[k v] d IH]; simpl; intros H; [reflexivity|].
  destruct (text_eqb r k) eqn:E.
  - apply text_eqb_eq in E. subst k. tauto.
  - simpl. f_equal. apply IH. tauto.
Qed.

Lemma precedes_incr (a b r : text) (d : dict nat) (rest : list text) :
  precedes a b (keys (incr r d) ++ rest)
  = precedes a b (keys d ++ r :: rest).
Proof.
  destruct (in_dec text_dec r (keys d)) as [H|H].
  - rewrite keys_incr_old, precedes_again by assumption. reflexivity.
  - rewrite keys_incr_new, <- app_assoc by assumption. reflexivity.
Qed.

Lemma NoDup_keys_incr (r : text) (d : dict nat) :
  NoDup (keys d) -> NoDup (keys (incr r d)).
Proof.
  intros H. destruct (in_dec text_dec r (keys d)) as [Hr|Hr].
  - rewrite keys_incr_old; assumption.
  - rewrite keys_incr_new by assumption.
    apply NoDup_app; [assumption | repeat constructor; simpl; tauto|].
    intros x Hx [<-|[]]. tauto.
Qed.

Lemma accumulate_by_type file_path f st :
  errors_by_type (accumulate file_path f st) = incr (rule f) (errors_by_type st).
Proof. unfold accumulate. destruct (text_eqb _ _); reflexivity. Qed.

Lemma loop1_recorded (ls : list text) (st : Aggregates) :
  fold_left step1 ls st = fold_left record (recorded1 ls) st.
Proof.
  revert st; induction ls as [|l ls IH]; intros st; [reflexivity|].
  unfold recorded1. simpl. rewrite fold_left_app, IH. unfold step1.
  destruct (parse_flat l) as [[p f]|]; reflexivity.
Qed.

Lemma loop2_recorded (ls : list text) (st : Cursor) :
  found (fold_left step2 ls st)
  = fold_left record (recorded2 (current_file st) ls) (found st).
Proof.
  revert st; induction ls as [|l ls IH]; intros st; [reflexivity|].
  simpl. rewrite IH. unfold step2.
  destruct (is_file_line l); [reflexivity|].
  destruct (truthy (current_file st)); [|reflexivity].
  destruct (parse_block l); reflexivity.
Qed.

Lemma analyze_recorded (s : script) (result : CompletedProcess) :
  analyze s result = fold_left record (recorded s result) no_findings.
Proof.
  destruct s; simpl.
  - apply loop1_recorded.
  - unfold analyze2, scan2. apply loop2_recorded.
Qed.

Lemma precedes_recorded (a b : text) (evs : list (text * Finding)) :
  forall st,
    precedes a b (keys (errors_by_type (fold_left record evs st)))
    = precedes a b
        (keys (errors_by_type st) ++ map (fun x => rule (snd x)) evs).
Proof.
  induction evs as [|e evs IH]; intros st; simpl.
  - rewrite app_nil_r. reflexivity.
  - rewrite IH. unfold record. rewrite accumulate_by_type.
    apply precedes_incr.
Qed.

Lemma NoDup_recorded (evs : list (text * Finding)) : forall st,
  NoDup (keys (errors_by_type st)) ->
  NoDup (keys (errors_by_type (fold_left record evs st))).
Proof.
  induction evs as [|e evs IH]; intros st H; simpl; [assumption|].
  apply IH. unfold record. rewrite accumulate_by_type.
  apply NoDup_keys_incr; assumption.
Qed.

Lemma in_insert_desc V (x y : V * nat) (l : list (V * nat)) :
  In y (insert_desc x l) <-> y = x \/ In y l.
Proof.
  induction l as [|z l IH]; simpl; [intuition congruence|].
  destruct (snd x <? snd z); simpl; [rewrite IH|]; intuition congruence.
Qed.

Lemma in_sorted_desc V (y : V * nat) (l : list (V * nat)) :
  In y (sorted_desc l) <-> In y l.
Proof.
  induction l as [|x l IH]; simpl; [tauto|].
  rewrite in_insert_desc, IH. intuition congruence.
Qed.

Lemma descending_cons V (x : V * nat) (l : list (V * nat)) :
  (forall y, In y l -> snd y <= snd x) -> descending l ->
  descending (x :: l).
Proof.
  intros Hx Hl [|i] [|j] u v Hij Hu Hv; try lia; simpl in *.
  - injection Hu as <-. apply Hx. eapply nth_error_In; eassumption.
  - apply (Hl i j); [lia | assumption..].
Qed.

Lemma descending_tail V (x : V * nat) (l : list (V * nat)) :
  descending (x :: l) ->
  (forall y, In y l -> snd y <= snd x) /\ descending l.
Proof.
  intros H; split.
  - intros y Hy. apply In_nth_error in Hy. destruct Hy as [j Hj].
    apply (H 0 (S j)); [lia | reflexivity | assumption].
  - intros i j u v Hij Hu Hv. apply (H (S i) (S j)); [lia | assumption..].
Qed.

Lemma insert_desc_descending V (x : V * nat) (l : list (V * nat)) :
  descending l -> descending (insert_desc x l).
Proof.
  induction l as [|z l IH]; simpl; intros H.
  - apply descending_cons; [contradiction | assumption].
  - apply descending_tail in H. destruct H as [Hz Hl].
    destruct (snd x <? snd z) eqn:E.
    + apply Nat.ltb_lt in E. apply descending_cons; [|auto].
      intros y Hy. apply in_insert_desc in Hy. destruct Hy as [->|Hy]; auto.
      lia.
    + apply Nat.ltb_ge in E. apply descending_cons.
      * intros y [<-|Hy]; [assumption|]. specialize (Hz y Hy). lia.
      * apply descending_cons; assumption.
Qed.

Lemma sorted_desc_descending V (l : list (V * nat)) :
  descending (sorted_desc l).
Proof.
  induction l as [|x l IH]; simpl.
  - intros [|i] j u v _ Hu; discriminate.
  - apply insert_desc_descending; assumption.
Qed.


Lemma precedes_insert_other (a b k : text) (n : nat) (l : list (text * nat)) :
  k <> a -> k <> b ->
  precedes a b (keys (insert_desc (k, n) l)) = precedes a b (keys l).
Proof.
  intros Ha Hb. apply text_eqb_neq in Ha, Hb.
  induction l as [|[k' m] l IH]; simpl.
  - rewrite Ha, Hb. reflexivity.
  - destruct (n <? m); simpl; [rewrite IH | rewrite Ha, Hb]; reflexivity.
Qed.

Lemma precedes_insert_first (a b : text) (n : nat) (l : list (text * nat)) :
  (forall m, In (b, m) l -> m <= n) ->
  precedes a b (keys (insert_desc (a, n) l)) = true.
Proof.
  induction l as [|[k m] l IH]; simpl; intros H.
  - rewrite text_eqb_refl. reflexivity.
  - destruct (n <? m) eqn:E; simpl; [|rewrite text_eqb_refl; reflexivity].
    apply Nat.ltb_lt in E.
    destruct (text_eqb k a); [reflexivity|].
    destruct (text_eqb k b) eqn:Eb; [|auto].
    apply text_eqb_eq in Eb; subst k. specialize (H m (or_introl eq_refl)).
    lia.
Qed.

Lemma precedes_insert_second (a b : text) (n : nat)
    (l : list (text * nat)) :
  a <> b -> (forall m, In (a, m) l -> m <= n) ->
  precedes a b (keys (insert_desc (b, n) l)) = false.
Proof.
  intros Hab. assert (Hba : text_eqb b a = false)
    by (apply text_eqb_neq; congruence).
  induction l as [|[k m] l IH]; simpl; intros H.
  - rewrite Hba, text_eqb_refl. reflexivity.
  - destruct (n <? m) eqn:E; simpl;
      [|rewrite Hba, text_eqb_refl; reflexivity].
    apply Nat.ltb_lt in E.
    destruct (text_eqb k a) eqn:Ea.
    + apply text_eqb_eq in Ea; subst k.
      specialize (H m (or_introl eq_refl)). lia.
    + destruct (text_eqb k b); [reflexivity | auto].
Qed.

Lemma precedes_sorted (a b : text) (n : nat) (d : dict nat) :
  (forall k m, In (k, m) d -> k = a \/ k = b -> m = n) ->
  precedes a b (keys (sorted_desc d)) = precedes a b (keys d).
Proof.
  induction d as [|[k m] d IH]; intros H; [reflexivity|].
  cbn [sorted_desc fold_right]. fold (sorted_desc d).
  assert (Hd : forall k' m', In (k', m') (sorted_desc d) ->
                             k' = a \/ k' = b -> m' <= n).
  { intros k' m' Hin Hk. apply (proj1 (in_sorted_desc _ _)) in Hin.
    assert (m' = n) by (apply (H k' m'); [right|]; assumption). lia. }
  simpl keys. simpl precedes.
  destruct (text_eqb k a) eqn:Ea.
  - apply text_eqb_eq in Ea; subst k.
    rewrite (H a m (or_introl eq_refl) (or_introl eq_refl)).
    apply precedes_insert_first. intros m' Hm'. apply (Hd b m'); auto.
  - destruct (text_eqb k b) eqn:Eb.
    + apply text_eqb_eq in Eb; subst k. apply text_eqb_neq in Ea.
      rewrite (H b m (or_introl eq_refl) (or_intror eq_refl)).
      apply precedes_insert_second; [congruence|].
      intros m' Hm'. apply (Hd a m'); auto.
    + apply text_eqb_neq in Ea, Eb.
      rewrite precedes_insert_other by assumption.
      apply IH. intros k' m' Hin. apply H. right; assumption.
Qed.

Lemma lookup_in V (k : text) (v : V) (d : dict V) :
  NoDup (keys d) -> In (k, v) d -> lookup k d = Some v.
Proof.
  induction d as [|[k' v'] d IH]; simpl; intros Hn Hin; [contradiction|].
  inversion Hn as [|? ? Hk' Hn']; subst.
  destruct Hin as [E|Hin].
  - injection E as -> ->. rewrite text_eqb_refl. reflexivity.
  - destruct (text_eqb k k') eqn:E; [|auto].
    apply text_eqb_eq in E; subst k'. exfalso; apply Hk'.
    apply (in_map fst) in Hin. exact Hin.
Qed.

Lemma insert_desc_perm V (x : V * nat) (l : list (V * nat)) :
  Permutation (insert_desc x l) (x :: l).
Proof.
  induction l as [|y l IH]; simpl; [reflexivity|].
  destruct (snd x <? snd y); [|reflexivity].
  rewrite IH. apply perm_swap.
Qed.

Lemma sorted_desc_perm V (l : list (V * nat)) :
  Permutation (sorted_desc l) l.
Proof.
  induction l as [|x l IH]; simpl; [reflexivity|].
  rewrite insert_desc_perm. constructor. assumption.
Qed.

(** C4: the ranking is the rule counts sorted in descending order of count -
    the same items, each once, no count before a larger one - and the sort
    is stable: two rules of equal count come in the order in which they first
    occur in the input, in both scripts; the order is stated with [precedes]
    and with the positions of the two rules. *)
Theorem ranking_is_stable (s : script) (result : CompletedProcess) :
  Permutation (sorted_errors (analyze s result))
    (errors_by_type (analyze s result))
  /\ descending (sorted_errors (analyze s result))
  /\ forall a b : text,
       lookup a (errors_by_type (analyze s result))
       = lookup b (errors_by_type (analyze s result)) ->
       precedes a b (ranking (analyze s result))
       = precedes a b (input_rules s result)
       /\ forall i j i' j',
            a <> b ->
            index a (ranking (analyze s result)) = Some i ->
            index b (ranking (analyze s result)) = Some j ->
            index a (input_rules s result) = Some i' ->
            index b (input_rules s result) = Some j' ->
            (i < j <-> i' < j').
Proof.
  split; [apply sorted_desc_perm|].
  split; [apply sorted_desc_descending|].
  intros a b Hcount.
  assert (E : precedes a b (ranking (analyze s result))
              = precedes a b (input_rules s result)).
  { unfold ranking, sorted_errors. fold (keys (sorted_desc
      (errors_by_type (analyze s result)))).
    rewrite (@precedes_sorted a b
               (get a 0 (errors_by_type (analyze s result)))).
    - rewrite analyze_recorded, precedes_recorded. reflexivity.
    - assert (Hn : NoDup (keys (errors_by_type (analyze s result))))
        by (rewrite analyze_recorded; apply NoDup_recorded; constructor).
      intros k m Hin Hk. apply (lookup_in _ _ _ Hn) in Hin.
      unfold get. destruct Hk as [-> | ->].
      + rewrite Hin. reflexivity.
      + rewrite Hcount, Hin. reflexivity. }
  split; [exact E|].
  intros i j i' j' Hab Hi Hj Hi' Hj'.
  rewrite <- (precedes_index _ Hab Hi Hj), <- (precedes_index _ Hab Hi' Hj').
  rewrite E. reflexivity.
Qed.

Example ties_block_ranking :
  ranking (analyze lint2 {| stdout := []; stderr := ties_block |})
  = [txt "@s/twice"; txt "@s/late"; txt "@s/early"].
Proof. vm_compute. reflexivity. Qed.

Lemma ranking_is_stable_witness :
  precedes (txt "@s/late") (txt "@s/early")
    (ranking (analyze lint2 {| stdout := []; stderr := ties_block |}))
  = precedes (txt "@s/late") (txt "@s/early")
      (input_rules lint2 {| stdout := []; stderr := ties_block |}).
Proof.
  apply (proj2 (proj2 (ranking_is_stable lint2
                         {| stdout := []; stderr := ties_block |}))
           (txt "@s/late") (txt "@s/early")).
  vm_compute. reflexivity.
Defined.

(** * The aggregates as counts of the findings *)

Lemma lookup_update V (k k' : text) (f : option V -> V) (d : dict V) :
  lookup k (update k' f d)
  = if text_eqb k k' then Some (f (lookup k d)) else lookup k d.
Proof.
  induction d as [|[k0 v] d IH]; simpl.
  - destruct (text_eqb k k'); reflexivity.
  - destruct (text_eqb k' k0) eqn:E0; simpl.
    + apply text_eqb_eq in E0; subst k0.
      destruct (text_eqb k k'); reflexivity.
    + rewrite IH. destruct (text_eqb k k') eqn:E; [|reflexivity].
      apply text_eqb_eq in E; subst k'. rewrite E0. reflexivity.
Qed.

Lemma get_incr (k r : text) (d : dict nat) :
  get k 0 (incr r d) = get k 0 d + (if text_eqb k r then 1 else 0).
Proof.
  unfold get, incr. rewrite lookup_update.
  destruct (text_eqb k r); destruct (lookup k d); lia.
Qed.

Lemma get_append_to V (k file : text) (x : V) (d : dict (list V)) :
  get k [] (append_to file x d)
  = get k [] d ++ (if text_eqb k file then [x] else []).
Proof.
  unfold get, append_to. rewrite lookup_update.
  destruct (text_eqb k file); destruct (lookup k d);
    rewrite ?app_nil_r; reflexivity.
Qed.

Lemma record_totals (evs : list (text * Finding)) : forall st,
  total_errors (fold_left record evs st)
  = total_errors st
    + count_where (fun x => text_eqb (severity (snd x)) (txt "error")) evs
  /\ total_warnings (fold_left record evs st)
     = total_warnings st
       + count_where
           (fun x => negb (text_eqb (severity (snd x)) (txt "error"))) evs.
Proof.
  unfold count_where.
  induction evs as [|e evs IH]; intros st; cbn [fold_left filter];
    [simpl; lia|].
  destruct (IH (record st e)) as [IH1 IH2]. rewrite IH1, IH2.
  unfold record, accumulate.
  destruct (text_eqb (severity (snd e)) (txt "error"));
    cbn [negb length total_errors total_warnings]; lia.
Qed.

Lemma record_by_type (r : text) (evs : list (text * Finding)) : forall st,
  get r 0 (errors_by_type (fold_left record evs st))
  = get r 0 (errors_by_type st)
    + count_where (fun x => text_eqb r (rule (snd x))) evs.
Proof.
  unfold count_where.
  induction evs as [|e evs IH]; intros st; cbn [fold_left filter];
    [simpl; lia|].
  rewrite IH. unfold record. rewrite accumulate_by_type, get_incr.
  destruct (text_eqb r (rule (snd e))); cbn [length]; lia.
Qed.

Lemma record_by_file (file : text) (evs : list (text * Finding)) : forall st,
  get file [] (errors_by_file (fold_left record evs st))
  = get file [] (errors_by_file st) ++ of_file file evs.
Proof.
  unfold of_file.
  induction evs as [|e evs IH]; intros st; cbn [fold_left filter map].
  - rewrite app_nil_r. reflexivity.
  - rewrite IH. unfold record. rewrite accumulate_by_file, get_append_to.
    rewrite (text_eqb_sym (fst e) file).
    destruct (text_eqb file (fst e)); cbn [map];
      rewrite <- ?app_assoc, ?app_nil_r; reflexivity.
Qed.

Lemma record_by_directory (d : text) (evs : list (text * Finding)) :
  forall st,
    get d 0 (errors_by_directory (fold_left record evs st))
    = get d 0 (errors_by_directory st) + count_where (in_directory d) evs.
Proof.
  unfold count_where.
  induction evs as [|e evs IH]; intros st; cbn [fold_left filter];
    [simpl; lia|].
  rewrite IH. unfold record. rewrite accumulate_by_directory.
  unfold in_directory.
  destruct (directory_of (fst e)) as [d'|]; [|lia].
  rewrite get_incr, (text_eqb_sym d' d).
  destruct (text_eqb d d'); cbn [length]; lia.
Qed.

Lemma recorded2_severity (ls : list text) : forall cursor,
  Forall (fun x => severity (snd x) = txt "error"
                   \/ severity (snd x) = txt "warning")
    (recorded2 cursor ls).
Proof.
  induction ls as [|l ls IH]; intros cursor; simpl; [constructor|].
  destruct (is_file_line l); [apply IH|].
  destruct (truthy cursor); [|apply IH].
  destruct (parse_block l) as [f|] eqn:E; [|apply IH].
  constructor; [|apply IH]. apply (parse_block_rule _ E).
Qed.

Lemma recorded1_severity (ls : list text) :
  Forall (fun x => severity (snd x) = txt "error"
                   \/ severity (snd x) = txt "warning")
    (recorded1 ls).
Proof.
  unfold recorded1. induction ls as [|l ls IH]; simpl; [constructor|].
  apply Forall_app; split; [|assumption].
  destruct (parse_flat l) as [[p f]|] eqn:E; constructor; [|constructor].
  apply (parse_flat_rule _ E).
Qed.

Lemma recorded_severity (s : script) (result : CompletedProcess) :
  Forall (fun x => severity (snd x) = txt "error"
                   \/ severity (snd x) = txt "warning")
    (recorded s result).
Proof.
  destruct s; [apply recorded1_severity | apply recorded2_severity].
Qed.

Lemma count_where_ext A (p q : A -> bool) (l : list A) :
  Forall (fun x => p x = q x) l -> count_where p l = count_where q l.
Proof.
  unfold count_where.
  induction 1 as [|x l Hx _ IH]; cbn [filter]; [reflexivity|].
  rewrite Hx. destruct (q x); cbn [length]; congruence.
Qed.

Lemma count_where_split A (p : A -> bool) (l : list A) :
  count_where p l + count_where (fun x => negb (p x)) l = length l.
Proof.
  unfold count_where. induction l as [|x l IH]; simpl; [reflexivity|].
  destruct (p x); simpl; lia.
Qed.

Lemma problems_are_findings (s : script) (result : CompletedProcess) :
  total_errors (analyze s result) + total_warnings (analyze s result)
  = length (recorded s result).
Proof.
  rewrite analyze_recorded.
  destruct (record_totals (recorded s result) no_findings) as [H1 H2].
  pose proof (count_where_split
                (fun x => text_eqb (severity (snd x)) (txt "error"))
                (recorded s result)) as Hsplit.
  rewrite H1, H2. cbn [total_errors total_warnings no_findings]. lia.
Qed.

(** X1: the error total is the number of findings of severity [error], the
    warning total the number of findings of severity [warning], and together
    they are the number of findings, in both scripts. *)
Theorem totals_count_findings (s : script) (result : CompletedProcess) :
  total_errors (analyze s result)
  = count_where (fun x => text_eqb (severity (snd x)) (txt "error"))
      (recorded s result)
  /\ total_warnings (analyze s result)
     = count_where (fun x => text_eqb (severity (snd x)) (txt "warning"))
         (recorded s result)
  /\ total_errors (analyze s result) + total_warnings (analyze s result)
     = length (recorded s result).
Proof.
  rewrite analyze_recorded.
  destruct (record_totals (recorded s result) no_findings) as [H1 H2].
  assert (E : count_where
                (fun x => negb (text_eqb (severity (snd x)) (txt "error")))
                (recorded s result)
              = count_where
                  (fun x => text_eqb (severity (snd x)) (txt "warning"))
                  (recorded s result)).
  { apply count_where_ext. eapply Forall_impl; [|apply recorded_severity].
    intros x [-> | ->]; reflexivity. }
  pose proof (count_where_split
                (fun x => text_eqb (severity (snd x)) (txt "error"))
                (recorded s result)) as Hsplit.
  rewrite H1, H2. cbn [total_errors total_warnings no_findings].
  rewrite <- E. repeat split. lia.
Qed.

(** X2: the count of a rule is the number of findings with that rule, zero
    for a rule that no finding has, in both scripts. *)
Theorem rule_count_is_occurrences (s : script) (result : CompletedProcess)
    (r : text) :
  get r 0 (errors_by_type (analyze s result))
  = count_where (fun x => text_eqb r (rule (snd x))) (recorded s result).
Proof. rewrite analyze_recorded, record_by_type. reflexivity. Qed.

(** X3: the findings stored for a file are the findings of that file in the
    order of the input, in both scripts. *)
Theorem file_findings_in_input_order (s : script)
    (result : CompletedProcess) (file : text) :
  get file [] (errors_by_file (analyze s result))
  = of_file file (recorded s result).
Proof. rewrite analyze_recorded, record_by_file. reflexivity. Qed.

(** * Lines written from a finding are read back *)

Lemma star_greedy_longest p (m rest : text) k res :
  all_in p m -> stops p rest -> k rest = Some res ->
  star_greedy p (m ++ rest) k = Some res.
Proof.
  intros Hm Hrest Hk. induction Hm as [|c m Hc _ IH]; simpl.
  - destruct rest as [|c rest]; [assumption|]. simpl in Hrest. simpl.
    rewrite Hrest. assumption.
  - rewrite Hc, IH. reflexivity.
Qed.

Lemma run_plus_longest whole p (m rest : text) c k res :
  m <> [] -> all_in p m -> stops p rest -> k rest c = Some res ->
  run whole (Plus p) (m ++ rest) c k = Some res.
Proof.
  intros Hne Hm Hrest Hk. destruct Hm as [|b m Hb Hm]; [congruence|].
  simpl. rewrite Hb. apply star_greedy_longest; assumption.
Qed.

Lemma star_lazy_first p (m rest : text) k res :
  all_in p m ->
  (forall m1 m2, m = m1 ++ m2 -> m2 <> [] -> k (m2 ++ rest) = None) ->
  k rest = Some res ->
  star_lazy p (m ++ rest) k = Some res.
Proof.
  intros Hm. induction Hm as [|b m Hb _ IH]; intros Hfail Hk.
  - simpl. destruct rest; simpl; rewrite Hk; reflexivity.
  - cbn [app star_lazy].
    assert (H0 : k (b :: m ++ rest) = None)
      by (apply (Hfail [] (b :: m) eq_refl); discriminate).
    rewrite H0, Hb. apply IH; [|assumption].
    intros m1 m2 E Hne. apply (Hfail (b :: m1) m2); [|assumption].
    rewrite E; reflexivity.
Qed.

Lemma run_plus_lazy_first whole p (b : ascii) (m rest : text) c k res :
  p b = true -> all_in p m ->
  (forall m1 m2, m = m1 ++ m2 -> m2 <> [] -> k (m2 ++ rest) c = None) ->
  k rest c = Some res ->
  run whole (PlusLazy p) ((b :: m) ++ rest) c k = Some res.
Proof.
  intros Hb Hm Hfail Hk. cbn [app run]. rewrite Hb.
  apply star_lazy_first; assumption.
Qed.

Lemma run_seq whole r1 r2 s c k :
  run whole (Seq r1 r2) s c k
  = run whole r1 s c (fun s1 c1 => run whole r2 s1 c1 k).
Proof. reflexivity. Qed.

Lemma run_group whole n r s c k :
  run whole (Group n r) s c k
  = run whole r s c (fun s1 c1 => k s1 ((n, taken s s1) :: c1)).
Proof. reflexivity. Qed.

Lemma run_lit whole a s c k : run whole (Lit a) (a :: s) c k = k s c.
Proof. simpl. rewrite Ascii.eqb_refl. reflexivity. Qed.

Lemma strip_prefix_app (w s : text) : strip_prefix w (w ++ s) = Some s.
Proof.
  induction w as [|x w IH]; simpl; [reflexivity|].
  rewrite Ascii.eqb_refl. assumption.
Qed.

Lemma run_word whole w s c k : run whole (Word w) (w ++ s) c k = k s c.
Proof. simpl. rewrite strip_prefix_app. reflexivity. Qed.

Lemma rev_inj (a b : text) : rev a = rev b -> a = b.
Proof.
  intros H. rewrite <- (rev_involutive a), H. apply rev_involutive.
Qed.

Lemma span_unique p (m m' rest rest' : text) :
  all_in p m -> all_in p m' -> stops p rest -> stops p rest' ->
  m ++ rest = m' ++ rest' -> m = m' /\ rest = rest'.
Proof.
  intros Hm Hm' Hr Hr' E.
  pose proof (@span_app p m rest Hm Hr) as S1.
  pose proof (@span_app p m' rest' Hm' Hr') as S2.
  rewrite E, S2 in S1. injection S1; auto.
Qed.

(** A text has at most one ending that is a rule identifier. *)
Lemma rule_suffix_unique (x r x' r' tail : text) :
  is_rule_id r -> is_rule_id r' -> tail = [] \/ tail = [newline] ->
  x ++ r = x' ++ r' ++ tail -> tail = [] /\ x = x' /\ r = r'.
Proof.
  intros (a & b & -> & Ha & Hb & Hra & Hrb)
         (a' & b' & -> & Ha' & Hb' & Hra' & Hrb') Ht E.
  apply (f_equal (@rev ascii)) in E.
  rewrite !rev_app_distr in E. simpl in E. rewrite <- !app_assoc in E.
  simpl in E.
  destruct Ht as [-> | ->]; simpl in E.
  - apply (@span_unique rule_char) in E;
      try (apply all_in_rev; assumption); try reflexivity.
    destruct E as [Eb E]. injection E as E.
    apply (@span_unique rule_char) in E;
      try (apply all_in_rev; assumption); try reflexivity.
    destruct E as [Ea E]. injection E as E.
    apply rev_inj in Ea, Eb, E. subst. auto.
  - exfalso. destruct (rev b) as [|d rb] eqn:Eb;
      [revert Eb; apply rev_nonempty, Hb|].
    simpl in E. injection E as -> _.
    apply all_in_rev in Hrb. rewrite Eb in Hrb. inversion Hrb; subst.
    discriminate.
Qed.

Lemma last_of_suffix (l m1 m2 y : text) (d : ascii) :
  l = m1 ++ m2 -> m2 <> [] -> l = y ++ [d] -> exists y2, m2 = y2 ++ [d].
Proof.
  intros E Hne El. destruct (exists_last Hne) as (y2 & d2 & ->).
  exists y2. rewrite E, app_assoc in El.
  apply app_inj_tail in El. destruct El as [_ ->]. reflexivity.
Qed.

(** After a text that ends without white space, the rest of the patterns
    cannot go on: the white space, the rule and the end. *)
Lemma tail_fails whole (n : nat) (y g4 r : text) (d : ascii) c k :
  is_space d = false -> all_in is_space g4 -> is_rule_id r ->
  run whole (Seq (Plus is_space) (Seq (Group n rule_re) Eol))
    ((y ++ [d]) ++ g4 ++ r) c k = None.
Proof.
  intros Hd Hg Hr.
  destruct (run whole _ _ c k) as [res|] eqn:E; [exfalso | reflexivity].
  apply run_sound in E. destruct E as (m & s' & c' & E & H & _).
  unfold rule_re in H. cbn [seqs] in H. inv_matches.
  match type of E with
  | _ = (?ws ++ ?r' ++ []) ++ ?t =>
      assert (E' : ((y ++ [d]) ++ g4) ++ r = ws ++ r' ++ t)
        by (rewrite <- app_assoc, E, app_nil_r, <- app_assoc; reflexivity);
      apply rule_suffix_unique in E';
        [|assumption | eexists _, _; repeat split; eauto | assumption];
      destruct E' as (_ & Ex & _);
      match goal with
      | A : all_in is_space ws |- _ =>
          rewrite <- Ex in A; apply Forall_app in A; destruct A as [A _];
          apply Forall_app in A; destruct A as [_ A];
          inversion A; congruence
      end
  end.
Qed.

Lemma run_alt_left whole r1 r2 s c k res :
  run whole r1 s c k = Some res -> run whole (Alt r1 r2) s c k = Some res.
Proof. intros H. cbn [run]. rewrite H. reflexivity. Qed.

Lemma run_alt_right whole r1 r2 s c k res :
  run whole r1 s c k = None -> run whole r2 s c k = Some res ->
  run whole (Alt r1 r2) s c k = Some res.
Proof. intros H1 H2. cbn [run]. rewrite H1. assumption. Qed.

Lemma run_plus_lazy_cons whole p (b : ascii) (m rest : text) c k res :
  p b = true -> all_in p m ->
  (forall m1 m2, m = m1 ++ m2 -> m2 <> [] -> k (m2 ++ rest) c = None) ->
  k rest c = Some res ->
  run whole (PlusLazy p) (b :: m ++ rest) c k = Some res.
Proof. apply run_plus_lazy_first. Qed.

Lemma taken_cons_app (x : ascii) (m s : text) :
  taken (x :: m ++ s) s = x :: m.
Proof. apply (taken_app (x :: m)). Qed.

Lemma taken_all (s : text) : taken s [] = s.
Proof.
  unfold taken. simpl. rewrite Nat.sub_0_r. apply firstn_all.
Qed.

Lemma stops_app (p q : ascii -> bool) (m rest : text) :
  m <> [] -> all_in q m -> (forall c, q c = true -> p c = false) ->
  stops p (m ++ rest).
Proof.
  intros Hne Hm Hpq. destruct Hm as [|c m Hc _]; [congruence|].
  simpl. auto.
Qed.

Lemma space_stops_not_space (c : ascii) :
  is_space c = true -> not_space c = false.
Proof. unfold not_space. intros ->. reflexivity. Qed.

Lemma digit_not_space (c : ascii) : is_digit c = true -> is_space c = false.
Proof.
  destruct c as [b0 b1 b2 b3 b4 b5 b6 b7].
  destruct b0, b1, b2, b3, b4, b5, b6, b7; vm_compute; congruence.
Qed.

Lemma space_not_digit (c : ascii) : is_space c = true -> is_digit c = false.
Proof.
  intros H. destruct (is_digit c) eqn:E; [|reflexivity].
  apply digit_not_space in E. congruence.
Qed.

Section Reads.
Variable whole : text.
Variables p ln col sev msg y a b g1 g2 g3 g4 : text.
Variables c0 d : ascii.
Hypothesis Hp : p <> [].
Hypothesis Hp' : all_in not_space p.
Hypothesis Hg1 : g1 <> [].
Hypothesis Hg1' : all_in is_space g1.
Hypothesis Hg2 : g2 <> [].
Hypothesis Hg2' : all_in is_space g2.
Hypothesis Hg3 : g3 <> [].
Hypothesis Hg3' : all_in is_space g3.
Hypothesis Hg4 : g4 <> [].
Hypothesis Hg4' : all_in is_space g4.
Hypothesis Hln : ln <> [].
Hypothesis Hln' : all_in is_digit ln.
Hypothesis Hcol : col <> [].
Hypothesis Hcol' : all_in is_digit col.
Hypothesis Hsev : sev = txt "error" \/ sev = txt "warning".
Hypothesis Hc0 : is_space c0 = false.
Hypothesis Hd : is_space d = false.
Hypothesis Hmsg : c0 :: msg = y ++ [d].
Hypothesis Hmsg' : all_in any_char (c0 :: msg).
Hypothesis Ha : a <> [].
Hypothesis Ha' : all_in rule_char a.
Hypothesis Hb : b <> [].
Hypothesis Hb' : all_in rule_char b.

Lemma fields_read (n : nat) (c : captures) :
  run whole
    (seqs [Group n (Plus is_digit); Lit ":"; Group (n + 1) (Plus is_digit);
           Plus is_space; severity_re (n + 2); Plus is_space;
           Group (n + 3) (PlusLazy any_char); Plus is_space;
           Group (n + 4) rule_re; Eol])
    (ln ++ ":"%char :: col ++ g2 ++ sev ++ g3 ++ c0 :: msg ++ g4
     ++ "@"%char :: a ++ "/"%char :: b ++ [])
    c (fun _ m => Some m)
  = Some ((n + 4, "@"%char :: a ++ "/"%char :: b) :: (n + 3, c0 :: msg)
          :: (n + 2, sev) :: (n + 1, col) :: (n, ln) :: c).
Proof.
  cbn [seqs]. unfold severity_re, rule_re. cbn [seqs].
  rewrite run_seq, run_group.
  apply run_plus_longest; [assumption | assumption | reflexivity|].
  rewrite taken_app, run_seq, run_lit, run_seq, run_group.
  apply run_plus_longest; [assumption | assumption | |].
  { eapply stops_app; eauto using space_not_digit. }
  rewrite taken_app, run_seq.
  apply run_plus_longest; [assumption | assumption | |].
  { destruct Hsev as [-> | ->]; reflexivity. }
  rewrite run_seq, run_group.
  assert (Hrest :
    run whole (Seq (Plus is_space)
      (Seq (Group (n + 3) (PlusLazy any_char))
         (Seq (Plus is_space) (Seq (Group (n + 4)
            (Seq (Lit "@") (Seq (Plus rule_char)
               (Seq (Lit "/") (Plus rule_char))))) Eol))))
      (g3 ++ c0 :: msg ++ g4 ++ "@"%char :: a ++ "/"%char :: b ++ [])
      ((n + 2, sev) :: (n + 1, col) :: (n, ln) :: c) (fun _ m => Some m)
    = Some ((n + 4, "@"%char :: a ++ "/"%char :: b) :: (n + 3, c0 :: msg)
            :: (n + 2, sev) :: (n + 1, col) :: (n, ln) :: c)).
  { rewrite run_seq.
    apply run_plus_longest; [assumption | assumption | exact Hc0 |].
    rewrite run_seq, run_group.
    inversion Hmsg' as [|? ? Hc0' Hmsg'']; subst.
    apply run_plus_lazy_cons; [assumption | assumption | |].
    - intros m1 m2 E Hne.
      destruct (@last_of_suffix (c0 :: msg) (c0 :: m1) m2 y d) as [y2 ->];
        [rewrite E; reflexivity | assumption | assumption |].
      rewrite app_nil_r. apply tail_fails; [assumption | assumption|].
      exists a, b. repeat split; assumption.
    - rewrite taken_cons_app, run_seq.
      apply run_plus_longest; [assumption | assumption | reflexivity|].
      rewrite run_seq, run_group, run_seq, run_lit, run_seq.
      apply run_plus_longest; [assumption | assumption | reflexivity|].
      rewrite run_seq, run_lit.
      apply run_plus_longest; [assumption | assumption | exact I|].
      rewrite taken_all, app_nil_r. reflexivity. }
  destruct Hsev as [E | E]; rewrite E in *.
  - apply run_alt_left. rewrite run_word, taken_app. exact Hrest.
  - apply run_alt_right; [reflexivity|].
    rewrite run_word, taken_app. exact Hrest.
Qed.

Lemma flat_body_read :
  run whole
    (seqs [Group 1 (Seq (Lit "/") (Plus not_space)); Plus is_space;
           Group 2 (Plus is_digit); Lit ":"; Group 3 (Plus is_digit);
           Plus is_space; severity_re 4; Plus is_space;
           Group 5 (PlusLazy any_char); Plus is_space; Group 6 rule_re; Eol])
    ("/"%char :: p ++ g1 ++ ln ++ ":"%char :: col ++ g2 ++ sev ++ g3
     ++ c0 :: msg ++ g4 ++ "@"%char :: a ++ "/"%char :: b ++ [])
    [] (fun _ m => Some m)
  = Some [(6, "@"%char :: a ++ "/"%char :: b); (5, c0 :: msg); (4, sev);
          (3, col); (2, ln); (1, "/"%char :: p)].
Proof.
  cbn [seqs].
  rewrite run_seq, run_group, run_seq, run_lit.
  apply run_plus_longest; [assumption | assumption | |].
  { eapply stops_app; eauto using space_stops_not_space. }
  rewrite taken_cons_app, run_seq.
  apply run_plus_longest; [assumption | assumption | |].
  { eapply stops_app; eauto using digit_not_space. }
  exact (fields_read 2 [(1, "/"%char :: p)]).
Qed.

Lemma block_body_read :
  run whole
    (seqs [Plus is_space; Group 1 (Plus is_digit); Lit ":";
           Group 2 (Plus is_digit); Plus is_space; severity_re 3;
           Plus is_space; Group 4 (PlusLazy any_char); Plus is_space;
           Group 5 rule_re; Eol])
    (g1 ++ ln ++ ":"%char :: col ++ g2 ++ sev ++ g3
     ++ c0 :: msg ++ g4 ++ "@"%char :: a ++ "/"%char :: b ++ [])
    [] (fun _ m => Some m)
  = Some [(5, "@"%char :: a ++ "/"%char :: b); (4, c0 :: msg); (3, sev);
          (2, col); (1, ln)].
Proof.
  cbn [seqs]. rewrite run_seq.
  apply run_plus_longest; [assumption | assumption | |].
  { eapply stops_app; eauto using digit_not_space. }
  exact (fields_read 1 []).
Qed.

Lemma head_read (rest : text) :
  run whole
    (seqs [Plus is_space; Plus is_digit; Lit ":"; Plus is_digit;
           Plus is_space; severity_re 1])
    (g1 ++ ln ++ ":"%char :: col ++ g2 ++ sev ++ rest)
    [] (fun _ m => Some m)
  = Some [(1, sev)].
Proof.
  cbn [seqs]. unfold severity_re. rewrite run_seq.
  apply run_plus_longest; [assumption | assumption | |].
  { eapply stops_app; eauto using digit_not_space. }
  rewrite run_seq.
  apply run_plus_longest; [assumption | assumption | reflexivity|].
  rewrite run_seq, run_lit, run_seq.
  apply run_plus_longest; [assumption | assumption | |].
  { eapply stops_app; eauto using space_not_digit. }
  rewrite run_seq.
  apply run_plus_longest; [assumption | assumption | |].
  { destruct Hsev as [-> | ->]; reflexivity. }
  rewrite run_group.
  destruct Hsev as [-> | ->].
  - apply run_alt_left. rewrite run_word, taken_app. reflexivity.
  - apply run_alt_right; [reflexivity|].
    rewrite run_word, taken_app. reflexivity.
Qed.
End Reads.

Lemma run_bol whole c k : run whole Bol whole c k = k whole c.
Proof. cbn [run]. rewrite Nat.eqb_refl. reflexivity. Qed.

Lemma nonempty_spec (s : text) : nonempty s = true -> s <> [].
Proof. destruct s; [discriminate | discriminate]. Qed.

Lemma digits_spec (s : text) :
  digits s = true -> s <> [] /\ all_in is_digit s.
Proof.
  unfold digits. intros H. apply andb_true_iff in H. destruct H as [H1 H2].
  split; [apply nonempty_spec, H1 | apply forallb_all_in, H2].
Qed.

Lemma gap_spec (g : text) : gap g = true -> g <> [] /\ all_in is_space g.
Proof.
  unfold gap. intros H. apply andb_true_iff in H. destruct H as [H1 H2].
  split; [apply nonempty_spec, H1 | apply forallb_all_in, H2].
Qed.

Lemma tight_spec (m : text) :
  tight m = true ->
  exists c0 m' y d,
    m = c0 :: m' /\ m = y ++ [d] /\ is_space c0 = false
    /\ is_space d = false.
Proof.
  unfold tight. destruct m as [|c0 m']; [discriminate|].
  destruct (rev (c0 :: m')) as [|d ry] eqn:E; [discriminate|].
  intros H. apply andb_true_iff in H. destruct H as [H1 H2].
  apply negb_true_iff in H1, H2.
  exists c0, m', (rev ry), d. repeat split; try assumption.
  apply rev_inj. rewrite E, rev_unit, rev_involutive. reflexivity.
Qed.

Lemma is_rule_idb_spec (r : text) :
  is_rule_idb r = true ->
  exists a b,
    r = "@"%char :: a ++ "/"%char :: b
    /\ a <> [] /\ b <> [] /\ all_in rule_char a /\ all_in rule_char b.
Proof.
  unfold is_rule_idb. destruct r as [|x rest]; [discriminate|].
  destruct (Ascii.eqb_spec x "@"%char) as [->|Hx];
    [|destruct x as [[] [] [] [] [] [] [] []]; congruence].
  destruct (span rule_char rest) as [a r1] eqn:E.
  destruct a as [|a0 a];
    [destruct r1 as [|[[] [] [] [] [] [] [] []] ?]; discriminate|].
  destruct r1 as [|z b]; [discriminate|].
  destruct (Ascii.eqb_spec z "/"%char) as [->|Hz];
    [|destruct z as [[] [] [] [] [] [] [] []]; congruence].
  intros H. apply andb_true_iff in H. destruct H as [H1 H2].
  apply span_spec in E. destruct E as [-> Ha].
  exists (a0 :: a), b. repeat split; try assumption; try discriminate.
  - apply nonempty_spec, H1.
  - apply forallb_all_in, H2.
Qed.

Lemma is_rule_idb_id (r : text) : is_rule_idb r = true -> is_rule_id r.
Proof.
  intros H. destruct (is_rule_idb_spec _ H) as (a & b & -> & H').
  exists a, b. split; [reflexivity | assumption].
Qed.

Lemma flat_path_spec (path : text) :
  flat_path path = true ->
  exists p, path = "/"%char :: p /\ p <> [] /\ all_in not_space p.
Proof.
  unfold flat_path. destruct path as [|x p]; [discriminate|].
  destruct (Ascii.eqb_spec x "/"%char) as [->|Hx];
    [|destruct x as [[] [] [] [] [] [] [] []]; congruence].
  intros H. apply andb_true_iff in H. destruct H as [H1 H2].
  exists p. repeat split;
    [apply nonempty_spec, H1 | apply forallb_all_in, H2].
Qed.

Lemma renderable_spec (f : Finding) :
  renderable f = true ->
  digits (line f) = true /\ digits (column f) = true
  /\ (severity f = txt "error" \/ severity f = txt "warning")
  /\ tight (message f) = true /\ all_in any_char (message f)
  /\ is_rule_idb (rule f) = true.
Proof.
  unfold renderable. intros H.
  rewrite !andb_true_iff, orb_true_iff, !text_eqb_eq in H.
  destruct H as (((((Hl & Hc) & Hs) & Ht) & Hm) & Hr).
  repeat split; try assumption. apply forallb_all_in; assumption.
Qed.

Lemma error_pattern_reads (path : text) (f : Finding) (g1 g2 g3 g4 : text) :
  flat_path path = true -> renderable f = true ->
  gap g1 = true -> gap g2 = true -> gap g3 = true -> gap g4 = true ->
  re_match error_pattern (flat_render path f g1 g2 g3 g4)
  = Some [(6, rule f); (5, message f); (4, severity f); (3, column f);
          (2, line f); (1, path)].
Proof.
  intros Hpath Hf H1 H2 H3 H4.
  destruct (flat_path_spec _ Hpath) as (p & -> & Hp & Hp').
  destruct (renderable_spec _ Hf) as (Hl & Hc & Hs & Ht & Hm & Hr).
  destruct f as [ln col sev msg r]. cbn [line column severity message rule] in *.
  apply digits_spec in Hl, Hc. apply gap_spec in H1, H2, H3, H4.
  destruct Hl, Hc, H1, H2, H3, H4.
  destruct (tight_spec _ Ht) as (c0 & m' & y & d & -> & Ey & Hc0 & Hd).
  destruct (is_rule_idb_spec _ Hr) as (a & b & -> & Ha & Hb & Ha' & Hb').
  unfold flat_render, re_match, error_pattern.
  cbn [line column severity message rule seqs app].
  rewrite run_seq, run_bol.
  match goal with
  | |- run ?w _ _ _ _ = _ => generalize w at 1; intros whole
  end.
  rewrite <- (app_nil_r b) at 1.
  eapply flat_body_read; eauto.
Qed.

Lemma finding_pattern_reads (f : Finding) (g0 g2 g3 g4 : text) :
  renderable f = true ->
  gap g0 = true -> gap g2 = true -> gap g3 = true -> gap g4 = true ->
  re_match finding_pattern (block_render f g0 g2 g3 g4)
  = Some [(5, rule f); (4, message f); (3, severity f); (2, column f);
          (1, line f)]
  /\ re_match head_pattern (block_render f g0 g2 g3 g4)
     = Some [(1, severity f)].
Proof.
  intros Hf H1 H2 H3 H4.
  destruct (renderable_spec _ Hf) as (Hl & Hc & Hs & Ht & Hm & Hr).
  destruct f as [ln col sev msg r].
  cbn [line column severity message rule] in *.
  apply digits_spec in Hl, Hc. apply gap_spec in H1, H2, H3, H4.
  destruct Hl, Hc, H1, H2, H3, H4.
  destruct (tight_spec _ Ht) as (c0 & m' & y & d & -> & Ey & Hc0 & Hd).
  destruct (is_rule_idb_spec _ Hr) as (a & b & -> & Ha & Hb & Ha' & Hb').
  unfold block_render, re_match, finding_pattern, head_pattern.
  cbn [line column severity message rule seqs app].
  rewrite !run_seq, !run_bol. split.
  - match goal with
    | |- run ?w _ _ _ _ = _ => generalize w at 1; intros whole
    end.
    rewrite <- (app_nil_r b) at 1.
    eapply block_body_read; eauto.
  - match goal with
    | |- run ?w _ _ _ _ = _ => generalize w at 1; intros whole
    end.
    eapply (@head_read whole ln col sev g0 g2); eauto.
Qed.

Lemma strip_tight (s x y : text) (c d : ascii) :
  s = c :: x -> s = y ++ [d] -> is_space c = false -> is_space d = false ->
  strip s = s.
Proof.
  intros E1 E2 Hc Hd. unfold strip.
  replace (lstrip s) with s by (rewrite E1; simpl; rewrite Hc; reflexivity).
  rewrite E2. apply rstrip_nonspace_end; assumption.
Qed.

Lemma flat_render_tight (path : text) (f : Finding) (g1 g2 g3 g4 : text) :
  flat_path path = true -> renderable f = true ->
  strip (flat_render path f g1 g2 g3 g4) = flat_render path f g1 g2 g3 g4.
Proof.
  intros Hp Hf.
  destruct (flat_path_spec _ Hp) as (p & -> & _).
  destruct (renderable_spec _ Hf) as (_ & _ & _ & _ & _ & Hr).
  destruct (rule_id_ends (is_rule_idb_id _ Hr)) as (c & d & x & y & _ & E & _ & Hd).
  unfold flat_render. rewrite E.
  eapply (@strip_tight _ _ _ "/"%char d); [reflexivity | | reflexivity | exact Hd].
  rewrite !app_comm_cons, !app_assoc. reflexivity.
Qed.

Lemma flat_line_read_back_core (path : text) (f : Finding)
    (g1 g2 g3 g4 : text) :
  flat_path path = true -> renderable f = true ->
  gap g1 = true -> gap g2 = true -> gap g3 = true -> gap g4 = true ->
  parse_flat (flat_render path f g1 g2 g3 g4) = Some (path, f)
  /\ strip (flat_render path f g1 g2 g3 g4) = flat_render path f g1 g2 g3 g4.
Proof.
  intros Hp Hf H1 H2 H3 H4.
  pose proof (@flat_render_tight path f g1 g2 g3 g4 Hp Hf) as Es.
  split; [|exact Es]. unfold parse_flat.
  rewrite Es, error_pattern_reads by assumption.
  destruct f; reflexivity.
Qed.

(** X4: a finding written as a flat line - an absolute path without white
    space, the position, the severity, a message without white space at its
    ends and a rule identifier, with any white space between them and around
    the line - is read back by analyze-lint.py as that path and finding. *)
Theorem flat_line_read_back (path : text) (f : Finding)
    (g1 g2 g3 g4 lead trail : text) (st : Aggregates)
    (Hpath : flat_path path = true) (Hf : renderable f = true)
    (Hgaps : forallb gap [g1; g2; g3; g4] = true)
    (Hlead : forallb is_space lead = true)
    (Htrail : forallb is_space trail = true) :
  parse_flat (lead ++ flat_render path f g1 g2 g3 g4 ++ trail)
  = Some (path, f)
  /\ step1 st (lead ++ flat_render path f g1 g2 g3 g4 ++ trail)
     = accumulate path f st.
Proof.
  cbn [forallb] in Hgaps. rewrite !andb_true_iff in Hgaps.
  destruct Hgaps as (H1 & H2 & H3 & H4 & _).
  assert (E : parse_flat (lead ++ flat_render path f g1 g2 g3 g4 ++ trail)
              = Some (path, f)).
  { unfold parse_flat.
    rewrite strip_pad by (apply forallb_all_in; assumption).
    rewrite flat_render_tight by assumption.
    rewrite error_pattern_reads by assumption.
    destruct f; reflexivity. }
  split; [exact E|]. unfold step1. rewrite E. reflexivity.
Qed.

Lemma flat_line_read_back_witness :
  parse_flat (txt "  " ++ flat_line ++ txt " ")
  = Some (txt "/a/b/src/components/Foo.tsx",
          {| line := txt "12"; column := txt "3"; severity := txt "error";
             message := txt "Unexpected any. Specify a different type";
             rule := txt "@typescript-eslint/no-explicit-any" |}).
Proof.
  apply (flat_line_read_back (txt "/a/b/src/components/Foo.tsx")
           {| line := txt "12"; column := txt "3"; severity := txt "error";
              message := txt "Unexpected any. Specify a different type";
              rule := txt "@typescript-eslint/no-explicit-any" |}
           (txt " ") (txt "  ") (txt "  ") (txt "  ") (txt "  ") (txt " ")
           no_findings);
    vm_compute; reflexivity.
Defined.

Lemma block_render_indented (f : Finding) (g0 g2 g3 g4 : text) :
  gap g0 = true -> is_file_line (block_render f g0 g2 g3 g4) = false.
Proof.
  intros H. apply gap_spec in H. destruct H as [Hne Hg].
  destruct Hg as [|c g Hc _]; [congruence|].
  rewrite is_file_line_slash. unfold block_render, startswith, txt.
  cbn [app list_ascii_of_string strip_prefix].
  rewrite space_not_slash by assumption. reflexivity.
Qed.

(** X5: a finding written as an indented line of the block shape is read
    back by analyze-lint2.py and accumulated under the file of the cursor;
    with no file line before it, it is skipped. *)
Theorem block_line_read_back (f : Finding) (g0 g2 g3 g4 : text)
    (st : Cursor)
    (Hf : renderable f = true)
    (Hgaps : forallb gap [g0; g2; g3; g4] = true) :
  parse_block (block_render f g0 g2 g3 g4) = Some f
  /\ step2 st (block_render f g0 g2 g3 g4)
     = match truthy (current_file st) with
       | Some file =>
           {| current_file := current_file st;
              found := accumulate file f (found st) |}
       | None => st
       end.
Proof.
  cbn [forallb] in Hgaps. rewrite !andb_true_iff in Hgaps.
  destruct Hgaps as (H0 & H2 & H3 & H4 & _).
  destruct (finding_pattern_reads f g0 g2 g3 g4) as [E1 E2]; try assumption.
  assert (E : parse_block (block_render f g0 g2 g3 g4) = Some f).
  { unfold parse_block. rewrite E2, E1. destruct f; reflexivity. }
  split; [exact E|].
  unfold step2. rewrite block_render_indented by assumption. rewrite E.
  reflexivity.
Qed.

Lemma block_line_read_back_witness :
  parse_block
    (txt "  214:109  error  Unexpected any. Specify a different type  @typescript-eslint/no-explicit-any")
  = Some {| line := txt "214"; column := txt "109";
            severity := txt "error";
            message := txt "Unexpected any. Specify a different type";
            rule := txt "@typescript-eslint/no-explicit-any" |}.
Proof.
  apply (block_line_read_back
           {| line := txt "214"; column := txt "109";
              severity := txt "error";
              message := txt "Unexpected any. Specify a different type";
              rule := txt "@typescript-eslint/no-explicit-any" |}
           (txt "  ") (txt "  ") (txt "  ") (txt "  ") start2);
    vm_compute; reflexivity.
Defined.

(** ** Whole reports *)

Lemma split_line (l rest : text) :
  all_in any_char l ->
  split newline (l ++ newline :: rest) = l :: split newline rest.
Proof.
  induction 1 as [|c l Hc _ IH]; simpl.
  - reflexivity.
  - unfold any_char in Hc. apply negb_true_iff in Hc. rewrite Hc, IH.
    reflexivity.
Qed.

Lemma split_last_line (l : text) :
  all_in any_char l -> split newline l = [l].
Proof.
  induction 1 as [|c l Hc _ IH]; simpl.
  - reflexivity.
  - unfold any_char in Hc. apply negb_true_iff in Hc. rewrite Hc, IH.
    reflexivity.
Qed.

Lemma split_unlines (ls : list text) :
  ls <> [] -> Forall (all_in any_char) ls -> split newline (unlines ls) = ls.
Proof.
  intros Hne H. induction H as [|l ls Hl Hls IH]; [congruence|].
  destruct ls as [|l' ls].
  - simpl. apply split_last_line; assumption.
  - cbn [unlines]. rewrite split_line by assumption.
    f_equal. apply IH. discriminate.
Qed.

Lemma any_char_of_not_space (c : ascii) :
  not_space c = true -> any_char c = true.
Proof.
  unfold not_space, any_char. intros H.
  destruct (Ascii.eqb_spec c newline) as [->|]; [discriminate | reflexivity].
Qed.

Lemma any_char_of_digit (c : ascii) : is_digit c = true -> any_char c = true.
Proof.
  intros H. apply any_char_of_not_space. unfold not_space.
  rewrite digit_not_space by assumption. reflexivity.
Qed.

Lemma any_char_of_rule_char (c : ascii) :
  rule_char c = true -> any_char c = true.
Proof.
  intros H. apply any_char_of_not_space. unfold not_space.
  rewrite rule_char_not_space by assumption. reflexivity.
Qed.

Lemma all_in_impl (p q : ascii -> bool) (m : text) :
  (forall c, p c = true -> q c = true) -> all_in p m -> all_in q m.
Proof. intros H. apply Forall_impl. exact H. Qed.

Lemma inline_gap_spec (g : text) :
  inline_gap g = true -> gap g = true /\ all_in any_char g.
Proof.
  unfold inline_gap. intros H. apply andb_true_iff in H.
  destruct H as [H1 H2]. split; [assumption | apply forallb_all_in, H2].
Qed.

Lemma fields_on_one_line (f : Finding) (g2 g3 g4 : text) :
  renderable f = true ->
  all_in any_char g2 -> all_in any_char g3 -> all_in any_char g4 ->
  all_in any_char
    (line f ++ ":"%char :: column f ++ g2 ++ severity f ++ g3 ++ message f
     ++ g4 ++ rule f).
Proof.
  intros Hf H2 H3 H4.
  destruct (renderable_spec _ Hf) as (Hl & Hc & Hs & _ & Hm & Hr).
  apply digits_spec in Hl, Hc. destruct Hl as [_ Hl], Hc as [_ Hc].
  destruct (is_rule_idb_spec _ Hr) as (a & b & -> & _ & _ & Ha & Hb).
  assert (Hd : forall m, all_in is_digit m -> all_in any_char m)
    by (intros m; apply all_in_impl, any_char_of_digit).
  assert (Hrc : forall m, all_in rule_char m -> all_in any_char m)
    by (intros m; apply all_in_impl, any_char_of_rule_char).
  apply Forall_app; split; [apply Hd, Hl|]. constructor; [reflexivity|].
  apply Forall_app; split; [apply Hd, Hc|].
  apply Forall_app; split; [assumption|].
  apply Forall_app; split;
    [destruct Hs as [-> | ->]; repeat constructor|].
  apply Forall_app; split; [assumption|].
  apply Forall_app; split; [assumption|].
  apply Forall_app; split; [assumption|].
  constructor; [reflexivity|].
  apply Forall_app; split; [apply Hrc, Ha|].
  constructor; [reflexivity | apply Hrc, Hb].
Qed.

Lemma written_ok_spec (flat : bool) (w : Written) :
  written_ok flat w = true ->
  exists g1 g2 g3 g4,
    w_gaps w = (g1, g2, g3, g4)
    /\ (flat = true -> flat_path (w_path w) = true)
    /\ renderable (w_finding w) = true
    /\ inline_gap g1 = true /\ inline_gap g2 = true
    /\ inline_gap g3 = true /\ inline_gap g4 = true.
Proof.
  unfold written_ok. destruct (w_gaps w) as [[[g1 g2] g3] g4].
  rewrite !andb_true_iff. intros (((((Hp & Hf) & H1) & H2) & H3) & H4).
  exists g1, g2, g3, g4. repeat split; try assumption.
  intros ->. assumption.
Qed.

Lemma flat_line_of_read (w : Written) :
  written_ok true w = true ->
  parse_flat (flat_line_of w) = Some (w_path w, w_finding w)
  /\ all_in any_char (flat_line_of w).
Proof.
  intros H. destruct (written_ok_spec _ _ H)
    as (g1 & g2 & g3 & g4 & Eg & Hp & Hf & H1 & H2 & H3 & H4).
  specialize (Hp eq_refl). unfold flat_line_of. rewrite Eg.
  apply inline_gap_spec in H1, H2, H3, H4.
  destruct H1 as [H1 L1], H2 as [H2 L2], H3 as [H3 L3], H4 as [H4 L4].
  split.
  - apply (proj1 (@flat_line_read_back_core (w_path w) (w_finding w)
                    g1 g2 g3 g4 Hp Hf H1 H2 H3 H4)).
  - unfold flat_render. apply Forall_app; split.
    + destruct (flat_path_spec _ Hp) as (p & -> & _ & Hp').
      constructor; [reflexivity|].
      eapply all_in_impl; [|exact Hp']. apply any_char_of_not_space.
    + apply Forall_app; split; [assumption|].
      apply fields_on_one_line; assumption.
Qed.


Lemma recorded1_written (ws : list Written) :
  forallb (written_ok true) ws = true ->
  recorded1 (map flat_line_of ws)
  = map (fun w => (w_path w, w_finding w)) ws
  /\ Forall (all_in any_char) (map flat_line_of ws).
Proof.
  unfold recorded1.
  induction ws as [|w ws IH]; cbn [forallb map flat_map]; intros H.
  - split; [reflexivity | constructor].
  - apply andb_true_iff in H. destruct H as [Hw Hws].
    destruct (flat_line_of_read _ Hw) as [E L].
    destruct (IH Hws) as [IH1 IH2]. rewrite E, IH1.
    split; [reflexivity | constructor; assumption].
Qed.

(** X6: a report of flat lines, one per finding, however it is divided over
    the two output streams, gives analyze-lint.py exactly these findings in
    their order, and its aggregates are those of accumulating them one by
    one. *)
Theorem flat_report_read_back (result : CompletedProcess)
    (ws : list Written)
    (Hout : stdout result ++ stderr result = flat_report ws)
    (Hws : forallb (written_ok true) ws = true) :
  recorded lint1 result = map (fun w => (w_path w, w_finding w)) ws
  /\ analyze lint1 result
     = fold_left record (map (fun w => (w_path w, w_finding w)) ws)
         no_findings.
Proof.
  assert (E : recorded lint1 result
              = map (fun w => (w_path w, w_finding w)) ws).
  { unfold recorded. rewrite Hout. unfold flat_report.
    destruct (recorded1_written _ Hws) as [E L].
    destruct ws as [|w ws]; [vm_compute; reflexivity|].
    rewrite split_unlines; [exact E | discriminate | exact L]. }
  split; [exact E|]. rewrite analyze_recorded, E. reflexivity.
Qed.

Lemma flat_report_read_back_witness :
  recorded lint1 {| stdout := flat_line ++ nl; stderr := flat_line |}
  = [(txt "/a/b/src/components/Foo.tsx",
      {| line := txt "12"; column := txt "3"; severity := txt "error";
         message := txt "Unexpected any. Specify a different type";
         rule := txt "@typescript-eslint/no-explicit-any" |});
     (txt "/a/b/src/components/Foo.tsx",
      {| line := txt "12"; column := txt "3"; severity := txt "error";
         message := txt "Unexpected any. Specify a different type";
         rule := txt "@typescript-eslint/no-explicit-any" |})].
Proof.
  pose (w := {| w_path := txt "/a/b/src/components/Foo.tsx";
                w_finding :=
                  {| line := txt "12"; column := txt "3";
                     severity := txt "error";
                     message := txt "Unexpected any. Specify a different type";
                     rule := txt "@typescript-eslint/no-explicit-any" |};
                w_gaps := (txt " ", txt "  ", txt "  ", txt "  ") |}).
  apply (flat_report_read_back
           {| stdout := flat_line ++ nl; stderr := flat_line |} [w; w]);
    vm_compute; reflexivity.
Defined.






(** * Directories and file groups *)

Lemma record_directory_sum (evs : list (text * Finding)) : forall st,
  sum_counts (errors_by_directory (fold_left record evs st))
  = sum_counts (errors_by_directory st) + count_where has_directory evs.
Proof.
  unfold count_where.
  induction evs as [|e evs IH]; intros st; cbn [fold_left filter];
    [simpl; lia|].
  rewrite IH. unfold record. rewrite accumulate_by_directory.
  unfold has_directory.
  destruct (directory_of (fst e)); [rewrite sum_counts_incr|];
    cbn [length]; lia.
Qed.

Lemma count_where_le A (p : A -> bool) (l : list A) :
  count_where p l <= length l.
Proof.
  unfold count_where. induction l as [|x l IH]; simpl; [lia|].
  destruct (p x); simpl; lia.
Qed.

(** X8: the count of a directory is the number of findings whose path has
    that directory key; the directory counts add up to the number of findings
    whose path has a key at all, which is at most the number of problems. *)
Theorem directory_counts_are_findings (s : script)
    (result : CompletedProcess) (d : text) :
  get d 0 (errors_by_directory (analyze s result))
  = count_where (in_directory d) (recorded s result)
  /\ sum_counts (errors_by_directory (analyze s result))
     = count_where has_directory (recorded s result)
  /\ sum_counts (errors_by_directory (analyze s result))
     <= total_errors (analyze s result) + total_warnings (analyze s result).
Proof.
  assert (Hs : sum_counts (errors_by_directory (analyze s result))
               = count_where has_directory (recorded s result))
    by (rewrite analyze_recorded, record_directory_sum; reflexivity).
  repeat split.
  - rewrite analyze_recorded, record_by_directory. reflexivity.
  - exact Hs.
  - rewrite Hs, problems_are_findings. apply count_where_le.
Qed.

Lemma keys_update_old V (k : text) (f : option V -> V) (d : dict V) :
  In k (keys d) -> keys (update k f d) = keys d.
Proof.
  induction d as [|[k' v] d IH]; simpl; intros H; [contradiction|].
  destruct (text_eqb k k') eqn:E; [reflexivity|]. simpl. f_equal.
  apply IH. destruct H as [H|H]; [|assumption].
  apply text_eqb_neq in E. congruence.
Qed.

Lemma keys_update_fresh V (k : text) (f : option V -> V) (d : dict V) :
  ~ In k (keys d) -> keys (update k f d) = keys d ++ [k].
Proof.
  induction d as [|[k' v] d IH]; simpl; intros H; [reflexivity|].
  destruct (text_eqb k k') eqn:E.
  - apply text_eqb_eq in E. subst k'. tauto.
  - simpl. f_equal. apply IH. tauto.
Qed.

Lemma NoDup_keys_update V (k : text) (f : option V -> V) (d : dict V) :
  NoDup (keys d) -> NoDup (keys (update k f d)).
Proof.
  intros H. destruct (in_dec text_dec k (keys d)) as [Hk|Hk].
  - rewrite keys_update_old; assumption.
  - rewrite keys_update_fresh by assumption.
    apply NoDup_app; [assumption | repeat constructor; simpl; tauto|].
    intros x Hx [<-|[]]. tauto.
Qed.

Lemma NoDup_files (evs : list (text * Finding)) : forall st,
  NoDup (keys (errors_by_file st)) ->
  NoDup (keys (errors_by_file (fold_left record evs st))).
Proof.
  induction evs as [|e evs IH]; intros st H; simpl; [assumption|].
  apply IH. unfold record. rewrite accumulate_by_file.
  apply NoDup_keys_update; assumption.
Qed.

Lemma stored_in_append_to (d file : text) (f : Finding)
    (by_file : dict (list Finding)) :
  stored_in d (append_to file f by_file)
  = stored_in d by_file
    + (match directory_of file with
       | Some d' => if text_eqb d' d then 1 else 0
       | None => 0
       end).
Proof.
  unfold stored_in, append_to.
  set (P := fun item : text * list Finding =>
              match directory_of (fst item) with
              | Some d' => text_eqb d' d
              | None => false
              end).
  set (L := fun item : text * list Finding => length (snd item)).
  assert (Hcons : forall x l,
             list_sum (map L (filter P (x :: l)))
             = (if P x then L x else 0) + list_sum (map L (filter P l))).
  { intros x l. cbn [filter]. destruct (P x); reflexivity. }
  assert (HP : forall k fs, P (k, fs) = match directory_of k with
                                        | Some d' => text_eqb d' d
                                        | None => false
                                        end) by reflexivity.
  induction by_file as [|[k fs] by_file IH]; cbn [update].
  - rewrite Hcons, HP. unfold L. cbn [snd filter map list_sum fold_right].
    destruct (directory_of file) as [d'|]; [|reflexivity].
    destruct (text_eqb d' d); reflexivity.
  - destruct (text_eqb file k) eqn:E.
    + apply text_eqb_eq in E; subst k. rewrite !Hcons, !HP. unfold L.
      cbn [snd]. rewrite length_app. cbn [length].
      destruct (directory_of file) as [d'|]; [|lia].
      destruct (text_eqb d' d); lia.
    + rewrite !Hcons, IH. lia.
Qed.

Lemma record_stored_in (d : text) (evs : list (text * Finding)) :
  forall st,
    stored_in d (errors_by_file (fold_left record evs st))
    = stored_in d (errors_by_file st) + count_where (in_directory d) evs.
Proof.
  unfold count_where.
  induction evs as [|e evs IH]; intros st; cbn [fold_left filter];
    [simpl; lia|].
  rewrite IH. unfold record. rewrite accumulate_by_file, stored_in_append_to.
  unfold in_directory.
  destruct (directory_of (fst e)) as [d'|]; [|lia].
  destruct (text_eqb d' d); cbn [length]; lia.
Qed.

Lemma groups_of_directory (d : text) (items : dict (list Finding)) :
  forall groups,
    get d [] (fold_left group_file items groups)
    = get d [] groups
      ++ map (fun item => (fst item, length (snd item)))
           (filter (fun item => match directory_of (fst item) with
                                | Some d' => text_eqb d' d
                                | None => false
                                end) items).
Proof.
  induction items as [|item items IH]; intros groups;
    cbn [fold_left filter map].
  - rewrite app_nil_r. reflexivity.
  - rewrite IH. unfold group_file.
    destruct (directory_of (fst item)) as [d'|]; [|reflexivity].
    rewrite get_append_to, (text_eqb_sym d d').
    destruct (text_eqb d' d); cbn [map];
      rewrite <- ?app_assoc, ?app_nil_r; reflexivity.
Qed.

Lemma group_of_directory (d : text) (st : Aggregates) :
  get d [] (file_groups st)
  = map (fun item => (fst item, length (snd item)))
      (filter (fun item => match directory_of (fst item) with
                           | Some d' => text_eqb d' d
                           | None => false
                           end) (errors_by_file st)).
Proof. unfold file_groups. rewrite groups_of_directory. reflexivity. Qed.

Lemma group_sum (d : text) (st : Aggregates) :
  list_sum (map snd (get d [] (file_groups st)))
  = stored_in d (errors_by_file st).
Proof.
  rewrite group_of_directory. unfold stored_in. rewrite map_map.
  reflexivity.
Qed.

Lemma group_members (s : script) (result : CompletedProcess)
    (d file : text) (n : nat) :
  In (file, n) (get d [] (file_groups (analyze s result))) ->
  directory_of file = Some d
  /\ n = length (of_file file (recorded s result)).
Proof.
  rewrite group_of_directory. intros H. apply in_map_iff in H.
  destruct H as ([k fs] & E & H). cbn [fst snd] in E. injection E as -> <-.
  apply filter_In in H. destruct H as [Hin Hd]. cbn [fst] in Hd. split.
  - destruct (directory_of file) as [d'|]; [|discriminate].
    apply text_eqb_eq in Hd. congruence.
  - assert (Hn : NoDup (keys (errors_by_file (analyze s result))))
      by (rewrite analyze_recorded; apply NoDup_files; constructor).
    apply (lookup_in _ _ _ Hn) in Hin.
    pose proof (record_by_file file (recorded s result) no_findings) as R.
    rewrite <- analyze_recorded in R. unfold get in R. rewrite Hin in R.
    cbn [errors_by_file no_findings lookup app] in R. rewrite R.
    reflexivity.
Qed.

(** X9: the file groups agree with the directory counts: the finding counts
    of the files grouped under a directory add up to the count of that
    directory, and each file of the group has that directory key and is
    listed with the number of its findings. *)
Theorem file_groups_match_directories (s : script)
    (result : CompletedProcess) (d : text) :
  list_sum (map snd (get d [] (file_groups (analyze s result))))
  = get d 0 (errors_by_directory (analyze s result))
  /\ forall file n,
       In (file, n) (get d [] (file_groups (analyze s result))) ->
       directory_of file = Some d
       /\ n = length (get file [] (errors_by_file (analyze s result))).
Proof.
  split.
  - rewrite group_sum, analyze_recorded, record_stored_in,
      record_by_directory. reflexivity.
  - intros file n H. destruct (group_members _ _ _ _ _ H) as [H1 H2].
    split; [exact H1|].
    rewrite analyze_recorded, record_by_file. exact H2.
Qed.

(** * The sorted sections of the report *)

Lemma in_firstn_nth A (K : nat) (x : A) (l : list A) :
  In x (firstn K l) -> exists i, i < K /\ nth_error l i = Some x.
Proof.
  revert l; induction K as [|K IH]; intros [|y l]; simpl; try contradiction.
  intros [->|H].
  - exists 0; split; [lia | reflexivity].
  - destruct (IH _ H) as (i & Hi & E). exists (S i); split; [lia | exact E].
Qed.

Lemma in_skipn_nth A (K : nat) (y : A) (l : list A) :
  In y (skipn K l) -> exists j, K <= j /\ nth_error l j = Some y.
Proof.
  revert l; induction K as [|K IH]; intros l; simpl.
  - intros H. apply In_nth_error in H. destruct H as [j Hj].
    exists j; split; [lia | exact Hj].
  - destruct l as [|z l]; [contradiction|]. intros H.
    destruct (IH _ H) as (j & Hj & E). exists (S j); split; [lia | exact E].
Qed.

Lemma top_dominates V (K : nat) (l : list (V * nat)) (x y : V * nat) :
  descending l -> In x (firstn K l) -> In y (skipn K l) -> snd y <= snd x.
Proof.
  intros Hd Hx Hy.
  destruct (in_firstn_nth _ _ _ Hx) as (i & Hi & Ei).
  destruct (in_skipn_nth _ _ _ Hy) as (j & Hj & Ej).
  apply (Hd i j); [lia | assumption | assumption].
Qed.

Lemma descending_firstn V (K : nat) (l : list (V * nat)) :
  descending l -> descending (firstn K l).
Proof.
  intros Hd i j x y Hij Hx Hy. apply (Hd i j); [assumption| |].
  - assert (i < K).
    { destruct (Nat.lt_ge_cases i K) as [H|H]; [assumption|].
      rewrite nth_error_firstn in Hx.
      destruct (Nat.ltb_ge i K) as [_ H']. rewrite (H' H) in Hx.
      discriminate. }
    rewrite nth_error_firstn in Hx.
    destruct (Nat.ltb_lt i K) as [_ H']. rewrite (H' H) in Hx. exact Hx.
  - assert (j < K).
    { destruct (Nat.lt_ge_cases j K) as [H|H]; [assumption|].
      rewrite nth_error_firstn in Hy.
      destruct (Nat.ltb_ge j K) as [_ H']. rewrite (H' H) in Hy.
      discriminate. }
    rewrite nth_error_firstn in Hy.
    destruct (Nat.ltb_lt j K) as [_ H']. rewrite (H' H) in Hy. exact Hy.
Qed.

(** X10: the top list of the report holds the rules of the largest counts:
    the top list and the rest together are the items of the rule counts, each
    once; the top list is in descending order and has K entries unless there
    are fewer rules, and then all of them; and a rule left out of the top K
    has no larger count than any rule in it. *)
Theorem top_errors_have_largest_counts (K : nat) (st : Aggregates) :
  Permutation (top_errors K st ++ below_top K st) (errors_by_type st)
  /\ descending (top_errors K st)
  /\ length (top_errors K st) = Nat.min K (length (errors_by_type st))
  /\ (length (errors_by_type st) <= K ->
      below_top K st = [] /\ top_errors K st = sorted_errors st)
  /\ forall x y : text * nat,
       In x (top_errors K st) -> In y (below_top K st) -> snd y <= snd x.
Proof.
  unfold top_errors, below_top, sorted_errors in *. repeat split.
  - rewrite firstn_skipn. apply sorted_desc_perm.
  - apply descending_firstn, sorted_desc_descending.
  - rewrite length_firstn.
    rewrite (Permutation_length (sorted_desc_perm (errors_by_type st))).
    reflexivity.
  - apply skipn_all2.
    rewrite (Permutation_length (sorted_desc_perm (errors_by_type st))).
    assumption.
  - apply firstn_all2.
    rewrite (Permutation_length (sorted_desc_perm (errors_by_type st))).
    assumption.
  - intros x y Hx Hy.
    eapply top_dominates; eauto using sorted_desc_descending.
Qed.


Lemma top_errors_have_largest_counts_witness :
  snd (txt "@s/f", 1) <= snd (txt "@s/a", 2).
Proof.
  apply (proj2 (proj2 (proj2 (proj2
           (top_errors_have_largest_counts 5
              (analyze lint2 {| stdout := []; stderr := six_rules_block |})))))
           (txt "@s/a", 2) (txt "@s/f", 1));
    vm_compute; auto.
Defined.

Example six_rules_top_five :
  top_errors 5 (analyze lint2 {| stdout := []; stderr := six_rules_block |})
  = [(txt "@s/a", 2); (txt "@s/b", 1); (txt "@s/c", 1); (txt "@s/d", 1);
     (txt "@s/e", 1)]
  /\ top_errors 10
       (analyze lint2 {| stdout := []; stderr := six_rules_block |})
     = sorted_errors
         (analyze lint2 {| stdout := []; stderr := six_rules_block |}).
Proof. split; vm_compute; reflexivity. Qed.

Lemma in_firstn A (K : nat) (x : A) (l : list A) :
  In x (firstn K l) -> In x l.
Proof.
  intros H. rewrite <- (firstn_skipn K l). apply in_or_app. left. exact H.
Qed.

Lemma shown_files_spec (s : script) (st : Aggregates) (directory : text)
    (files : list (text * nat)) :
  In (directory, files) (shown_files s st) ->
  In directory (shown_directories s)
  /\ exists group,
       lookup directory (file_groups st) = Some group
       /\ files = firstn 5 (sorted_desc group).
Proof.
  unfold shown_files. intros H. apply in_flat_map in H.
  destruct H as (d & Hd & H).
  destruct (lookup d (file_groups st)) as [group|] eqn:E; [|contradiction].
  destruct H as [H|[]]. injection H as -> <-.
  split; [assumption|]. exists group. split; [assumption | reflexivity].
Qed.

(** X12: the file section shows only directories of the fixed list, at most
    five files for each, every one a file of that directory with the number
    of its findings; a file of the directory that is not shown has no more
    findings than any file shown. *)
Theorem shown_files_are_the_top_five (s : script)
    (result : CompletedProcess) (directory : text)
    (files : list (text * nat))
    (Hshown : In (directory, files) (shown_files s (analyze s result))) :
  In directory (shown_directories s)
  /\ length files <= 5
  /\ descending files
  /\ forall file n,
       In (file, n) files ->
       directory_of file = Some directory
       /\ n = length (get file [] (errors_by_file (analyze s result)))
       /\ forall file' n',
            In (file', n')
              (get directory [] (file_groups (analyze s result))) ->
            ~ In (file', n') files -> n' <= n.
Proof.
  destruct (shown_files_spec _ _ _ _ Hshown) as (Hd & group & Hg & ->).
  assert (Eg : get directory [] (file_groups (analyze s result)) = group)
    by (unfold get; rewrite Hg; reflexivity).
  repeat split.
  - exact Hd.
  - rewrite length_firstn. lia.
  - apply descending_firstn, sorted_desc_descending.
  - apply in_firstn in H. apply (proj1 (in_sorted_desc _ _)) in H.
    rewrite <- Eg in H. apply (group_members _ _ _ _ _ H).
  - apply in_firstn in H. apply (proj1 (in_sorted_desc _ _)) in H.
    rewrite <- Eg in H. destruct (group_members _ _ _ _ _ H) as [_ ->].
    rewrite analyze_recorded, record_by_file. reflexivity.
  - intros file' n' Hin Hnot. rewrite Eg in Hin.
    apply (proj2 (in_sorted_desc _ _)) in Hin.
    rewrite <- (firstn_skipn 5 (sorted_desc group)) in Hin.
    apply in_app_or in Hin. destruct Hin as [Hin|Hin]; [contradiction|].
    apply (@top_dominates _ 5 (sorted_desc group) (file, n) (file', n'));
      auto using sorted_desc_descending.
Qed.

Lemma shown_files_are_the_top_five_witness :
  In (txt "lib") (shown_directories lint2).
Proof.
  apply (@shown_files_are_the_top_five lint2 shown_sample
           (txt "lib") [(txt "/a/src/lib/x.ts", 2)]).
  vm_compute. left. reflexivity.
Defined.

(** * What is recorded and what is not *)

Lemma scoped_analyze (s : script) (result : CompletedProcess) :
  scoped_state (analyze s result).
Proof.
  destruct s; simpl.
  - apply loop1_scoped. split; constructor.
  - apply loop2_scoped. split; constructor.
Qed.

(** X13: a lookup key without a leading [@] is never a key of the rule
    counts: its count is zero for every output, as for the key
    [react-refresh/only-export-components] of the fourth group. *)
Theorem unscoped_key_counts_zero (s : script) (result : CompletedProcess)
    (k : text) (Hk : scoped k = false) :
  get k 0 (errors_by_type (analyze s result)) = 0.
Proof.
  unfold get.
  replace (lookup k (errors_by_type (analyze s result))) with (@None nat);
    [reflexivity|].
  symmetry. apply lookup_None. intros Hin.
  destruct (scoped_analyze s result) as [H _].
  rewrite Forall_forall in H. rewrite (H k Hin) in Hk. discriminate.
Qed.

Lemma unscoped_key_counts_zero_witness :
  get (txt "react-refresh/only-export-components") 0
    (errors_by_type
       (analyze lint2 {| stdout := []; stderr := sample_block |})) = 0.
Proof.
  apply (unscoped_key_counts_zero lint2
           {| stdout := []; stderr := sample_block |}
           (txt "react-refresh/only-export-components")).
  vm_compute. reflexivity.
Defined.

Lemma all_in_forallb p (m : text) : all_in p m -> forallb p m = true.
Proof.
  intros H. apply forallb_forall. apply Forall_forall. exact H.
Qed.

Lemma digits_of (m : text) : m <> [] -> all_in is_digit m -> digits m = true.
Proof.
  intros Hne H. unfold digits. rewrite all_in_forallb by assumption.
  destruct m; [congruence | reflexivity].
Qed.

Lemma is_rule_idb_of (a b : text) :
  a <> [] -> b <> [] -> all_in rule_char a -> all_in rule_char b ->
  is_rule_idb (["@"%char] ++ a ++ ["/"%char] ++ b) = true.
Proof.
  intros Ha Hb Ha' Hb'. unfold is_rule_idb. cbn [app].
  rewrite span_app by (auto; reflexivity).
  destruct a; [congruence|]. rewrite (all_in_forallb Hb').
  destruct b; [congruence | reflexivity].
Qed.

Lemma error_pattern_fields s res :
  re_match error_pattern s = Some res ->
  exists path ln col sev msg r,
    res = [(6, r); (5, msg); (4, sev); (3, col); (2, ln); (1, path)]
    /\ flat_path path = true /\ digits ln = true /\ digits col = true
    /\ nonempty msg = true /\ forallb any_char msg = true
    /\ is_rule_idb r = true.
Proof.
  intros H. apply re_match_sound in H. destruct H as (m & s' & E & H).
  unfold error_pattern, rule_re, severity_re in H. cbn [seqs] in H.
  inv_matches;
    (do 6 eexists; split; [reflexivity|];
     repeat split;
     [ unfold flat_path; cbn [app];
       match goal with
       | A : all_in not_space ?p, N : ?p <> [] |- _ =>
           rewrite (all_in_forallb A); destruct p; [congruence | reflexivity]
       end
     | apply digits_of; assumption
     | apply digits_of; assumption
     | match goal with
       | N : ?p <> [] |- nonempty ?p = true =>
           destruct p; [congruence | reflexivity]
       end
     | apply all_in_forallb; assumption
     | apply is_rule_idb_of; assumption ]).
Qed.

Lemma finding_pattern_fields s res :
  re_match finding_pattern s = Some res ->
  exists ln col sev msg r,
    res = [(5, r); (4, msg); (3, sev); (2, col); (1, ln)]
    /\ digits ln = true /\ digits col = true
    /\ nonempty msg = true /\ forallb any_char msg = true
    /\ is_rule_idb r = true.
Proof.
  intros H. apply re_match_sound in H. destruct H as (m & s' & E & H).
  unfold finding_pattern, rule_re, severity_re in H. cbn [seqs] in H.
  inv_matches;
    (do 5 eexists; split; [reflexivity|];
     repeat split;
     [ apply digits_of; assumption
     | apply digits_of; assumption
     | match goal with
       | N : ?p <> [] |- nonempty ?p = true =>
           destruct p; [congruence | reflexivity]
       end
     | apply all_in_forallb; assumption
     | apply is_rule_idb_of; assumption ]).
Qed.

Lemma severity_test (sev : text) :
  sev = txt "error" \/ sev = txt "warning" ->
  text_eqb sev (txt "error") || text_eqb sev (txt "warning") = true.
Proof. intros [-> | ->]; reflexivity. Qed.

Lemma flat_path_slash (path : text) :
  flat_path path = true -> startswith (txt "/") path = true.
Proof.
  intros H. destruct (flat_path_spec _ H) as (p & -> & _). reflexivity.
Qed.

Lemma parse_flat_well_formed (l : text) (x : text * Finding) :
  parse_flat l = Some x -> well_formed x = true /\ flat_path (fst x) = true.
Proof.
  intros H. destruct x as [path f].
  destruct (parse_flat_rule _ H) as (_ & _ & Hs & _).
  unfold parse_flat in H.
  destruct (re_match error_pattern (strip l)) as [m|] eqn:E; [|discriminate].
  apply error_pattern_fields in E.
  destruct E as (p & ln & col & sev & msg & r & -> & Hp & Hl & Hc & Hn & Hm & Hr).
  cbn in H. injection H as <- <-.
  cbn [severity] in Hs. unfold well_formed.
  cbn [fst snd line column severity message rule].
  rewrite (flat_path_slash _ Hp), Hl, Hc, (severity_test Hs), Hn, Hm, Hr.
  split; [reflexivity | assumption].
Qed.

Lemma parse_block_well_formed (l file : text) (f : Finding) :
  parse_block l = Some f -> startswith (txt "/") file = true ->
  well_formed (file, f) = true.
Proof.
  intros H Hfile.
  destruct (parse_block_rule _ H) as (_ & _ & Hs).
  unfold parse_block in H.
  destruct (re_match head_pattern l); [|discriminate].
  destruct (re_match finding_pattern l) as [m|] eqn:E; [|discriminate].
  apply finding_pattern_fields in E.
  destruct E as (ln & col & sev & msg & r & -> & Hl & Hc & Hn & Hm & Hr).
  cbn in H. injection H as <-.
  cbn [severity] in Hs. unfold well_formed.
  cbn [fst snd line column severity message rule].
  rewrite Hfile, Hl, Hc, (severity_test Hs), Hn, Hm, Hr. reflexivity.
Qed.

Lemma recorded1_well_formed (ls : list text) :
  Forall (fun x => well_formed x = true /\ flat_path (fst x) = true)
    (recorded1 ls).
Proof.
  unfold recorded1. induction ls as [|l ls IH]; simpl; [constructor|].
  apply Forall_app; split; [|assumption].
  destruct (parse_flat l) as [x|] eqn:E; constructor; [|constructor].
  apply (parse_flat_well_formed _ E).
Qed.

Lemma recorded2_well_formed (ls : list text) : forall cursor,
  match truthy cursor with
  | Some file => startswith (txt "/") file = true
  | None => True
  end ->
  Forall (fun x => well_formed x = true) (recorded2 cursor ls).
Proof.
  induction ls as [|l ls IH]; intros cursor Hc; simpl; [constructor|].
  destruct (is_file_line l) eqn:Ef.
  - apply IH. rewrite is_file_line_slash in Ef.
    destruct (strip_slash _ Ef) as [y Hy]. rewrite Hy. reflexivity.
  - destruct (truthy cursor) as [file|] eqn:Et; [|apply IH; rewrite Et; exact I].
    destruct (parse_block l) as [f|] eqn:E; [|apply IH; rewrite Et; exact Hc].
    constructor; [|apply IH; rewrite Et; exact Hc].
    apply (parse_block_well_formed _ _ E Hc).
Qed.

(** X14: every finding that either script records has a file path that
    starts with a slash, a line and a column of digits, the severity [error]
    or [warning], a message that is not empty and holds no line break, and a
    rule identifier of the form [@scope/name]; in the flat shape the path
    holds no white space. *)
Theorem recorded_findings_are_well_formed (s : script)
    (result : CompletedProcess) :
  Forall (fun x => well_formed x = true) (recorded s result)
  /\ Forall (fun x => flat_path (fst x) = true) (recorded lint1 result).
Proof.
  split.
  - destruct s; simpl.
    + eapply Forall_impl; [|apply recorded1_well_formed].
      intros x [H _]; exact H.
    + apply recorded2_well_formed. exact I.
  - eapply Forall_impl; [|apply recorded1_well_formed].
    intros x [_ H]; exact H.
Qed.

Lemma step1_skip (st : Aggregates) (l : text) :
  parses_flat l = false -> step1 st l = st.
Proof.
  unfold parses_flat, step1. destruct (parse_flat l) as [[p f]|];
    [discriminate | reflexivity].
Qed.

Lemma step2_skip (st : Cursor) (l : text) :
  counts_in_block l = false -> step2 st l = st.
Proof.
  unfold counts_in_block, step2. intros H. apply orb_false_iff in H.
  destruct H as [H1 H2]. rewrite H1.
  destruct (parse_block l); [discriminate|].
  destruct (truthy (current_file st)); reflexivity.
Qed.

Lemma loop1_filter (ls : list text) : forall st,
  fold_left step1 ls st = fold_left step1 (filter parses_flat ls) st.
Proof.
  induction ls as [|l ls IH]; intros st; cbn [filter fold_left];
    [reflexivity|].
  destruct (parses_flat l) eqn:E; cbn [fold_left].
  - apply IH.
  - rewrite step1_skip by assumption. apply IH.
Qed.

Lemma loop2_filter (ls : list text) : forall st,
  fold_left step2 ls st = fold_left step2 (filter counts_in_block ls) st.
Proof.
  induction ls as [|l ls IH]; intros st; cbn [filter fold_left];
    [reflexivity|].
  destruct (counts_in_block l) eqn:E; cbn [fold_left].
  - apply IH.
  - rewrite step2_skip by assumption. apply IH.
Qed.

(** X15: lines that do not parse are inert: analyze-lint.py gives the
    aggregates of the parsing lines alone, and analyze-lint2.py those of the
    file lines and the parsing lines alone, cursor included. *)
Theorem unparsed_lines_are_inert (result : CompletedProcess) :
  analyze1 result
  = fold_left step1
      (filter parses_flat
         (split newline (stdout result ++ stderr result)))
      no_findings
  /\ scan2 (stderr result)
     = fold_left step2
         (filter counts_in_block (split newline (stderr result))) start2.
Proof.
  split.
  - unfold analyze1. apply loop1_filter.
  - unfold scan2. apply loop2_filter.
Qed.

Lemma split_nonempty (sep : ascii) (s : text) : split sep s <> [].
Proof.
  destruct s as [|c s]; simpl; [discriminate|].
  destruct (Ascii.eqb c sep); [discriminate|].
  destruct (split sep s); discriminate.
Qed.

Lemma split_app_sep (sep : ascii) (a b : text) :
  split sep (a ++ sep :: b) = split sep a ++ split sep b.
Proof.
  induction a as [|c a IH]; cbn [app split].
  - rewrite Ascii.eqb_refl. reflexivity.
  - destruct (Ascii.eqb c sep); [rewrite IH; reflexivity|].
    rewrite IH.
    destruct (split sep a) as [|l ls] eqn:E;
      [exfalso; revert E; apply split_nonempty | reflexivity].
Qed.

Lemma recorded1_app (ls1 ls2 : list text) :
  recorded1 (ls1 ++ ls2) = recorded1 ls1 ++ recorded1 ls2.
Proof. unfold recorded1. apply flat_map_app. Qed.

Lemma count_where_app A (p : A -> bool) (l1 l2 : list A) :
  count_where p (l1 ++ l2) = count_where p l1 + count_where p l2.
Proof. unfold count_where. rewrite filter_app, length_app. reflexivity. Qed.

(** X16: analyze-lint.py joins the two streams as they are; when the
    standard output ends with a line break, the findings are those of the
    standard output followed by those of the standard error, and the totals
    and the counts of each rule and directory are the sums of what each
    stream gives alone. *)
Theorem flat_streams_add (out err r d : text) :
  let both := {| stdout := out ++ nl; stderr := err |} in
  let first := {| stdout := out; stderr := [] |} in
  let second := {| stdout := []; stderr := err |} in
  recorded lint1 both = recorded lint1 first ++ recorded lint1 second
  /\ total_errors (analyze1 both)
     = total_errors (analyze1 first) + total_errors (analyze1 second)
  /\ total_warnings (analyze1 both)
     = total_warnings (analyze1 first) + total_warnings (analyze1 second)
  /\ get r 0 (errors_by_type (analyze1 both))
     = get r 0 (errors_by_type (analyze1 first))
       + get r 0 (errors_by_type (analyze1 second))
  /\ get d 0 (errors_by_directory (analyze1 both))
     = get d 0 (errors_by_directory (analyze1 first))
       + get d 0 (errors_by_directory (analyze1 second)).
Proof.
  intros both first second.
  assert (E : recorded lint1 both
              = recorded lint1 first ++ recorded lint1 second).
  { unfold recorded, both, first, second. cbn [stdout stderr].
    rewrite app_nil_r. cbn [app]. unfold nl. rewrite <- app_assoc.
    cbn [app]. rewrite split_app_sep. apply recorded1_app. }
  split; [exact E|].
  pose proof (analyze_recorded lint1 both) as Rb.
  pose proof (analyze_recorded lint1 first) as Rf.
  pose proof (analyze_recorded lint1 second) as Rs.
  cbn [analyze] in Rb, Rf, Rs. rewrite Rb, Rf, Rs, E.
  repeat split.
  - rewrite !(proj1 (record_totals _ _)), count_where_app.
    cbn [total_errors no_findings]. lia.
  - rewrite !(proj2 (record_totals _ _)), count_where_app.
    cbn [total_warnings no_findings]. lia.
  - rewrite !record_by_type, count_where_app. unfold get. simpl. lia.
  - rewrite !record_by_directory, count_where_app. unfold get. simpl. lia.
Qed.

(** * The fixed groups *)

Lemma fold_add_sum (l : list nat) (n : nat) :
  fold_left Nat.add l n = n + list_sum l.
Proof.
  revert n; induction l as [|x l IH]; intros n; simpl; [lia|].
  rewrite IH. lia.
Qed.

Lemma hooks_sum_incr (r : text) (d : dict nat) :
  list_sum (map snd (filter (fun item => is_hooks_rule (fst item)) (incr r d)))
  = list_sum (map snd (filter (fun item => is_hooks_rule (fst item)) d))
    + (if is_hooks_rule r then 1 else 0).
Proof.
  unfold incr.
  assert (Hcons : forall (x : text * nat) l,
             list_sum (map snd
                         (filter (fun item => is_hooks_rule (fst item))
                            (x :: l)))
             = (if is_hooks_rule (fst x) then snd x else 0)
               + list_sum (map snd
                             (filter (fun item => is_hooks_rule (fst item))
                                l))).
  { intros x l. cbn [filter]. destruct (is_hooks_rule (fst x)); reflexivity. }
  induction d as [|[k v] d IH]; cbn [update].
  - rewrite Hcons. cbn [fst snd filter map list_sum fold_right].
    destruct (is_hooks_rule r); reflexivity.
  - destruct (text_eqb r k) eqn:E.
    + apply text_eqb_eq in E; subst k. rewrite !Hcons. cbn [fst snd].
      destruct (is_hooks_rule r); lia.
    + rewrite !Hcons, IH. lia.
Qed.

Lemma record_hooks (evs : list (text * Finding)) : forall st,
  react_hooks_total (fold_left record evs st)
  = react_hooks_total st
    + count_where (fun x => is_hooks_rule (rule (snd x))) evs.
Proof.
  unfold react_hooks_total, count_where.
  induction evs as [|e evs IH]; intros st; cbn [fold_left filter];
    [simpl; lia|].
  rewrite IH. unfold record. rewrite accumulate_by_type.
  rewrite !fold_add_sum.
  change (fun item : text * nat => contains (txt "react-hooks") (fst item))
    with (fun item : text * nat => is_hooks_rule (fst item)).
  rewrite hooks_sum_incr.
  destruct (is_hooks_rule (rule (snd e))); cbn [length]; lia.
Qed.

(** X17: the five counts of the fixed groups are the numbers of findings of
    the group's rule, and for the hooks group the number of findings whose
    rule contains [react-hooks]; no count exceeds the number of problems. *)
Theorem group_counts_are_findings (s : script) (result : CompletedProcess) :
  group_counts (analyze s result)
  = [ count_where (with_rule (txt "@typescript-eslint/no-explicit-any"))
        (recorded s result);
      count_where (with_rule (txt "@typescript-eslint/no-unused-vars"))
        (recorded s result);
      count_where (fun x => is_hooks_rule (rule (snd x)))
        (recorded s result);
      count_where (with_rule (txt "react-refresh/only-export-components"))
        (recorded s result);
      count_where (with_rule (txt "@typescript-eslint/no-empty-object-type"))
        (recorded s result) ]
  /\ Forall
       (fun n => n <= total_errors (analyze s result)
                      + total_warnings (analyze s result))
       (group_counts (analyze s result)).
Proof.
  assert (E : group_counts (analyze s result)
              = [ count_where
                    (with_rule (txt "@typescript-eslint/no-explicit-any"))
                    (recorded s result);
                  count_where
                    (with_rule (txt "@typescript-eslint/no-unused-vars"))
                    (recorded s result);
                  count_where (fun x => is_hooks_rule (rule (snd x)))
                    (recorded s result);
                  count_where
                    (with_rule (txt "react-refresh/only-export-components"))
                    (recorded s result);
                  count_where
                    (with_rule
                       (txt "@typescript-eslint/no-empty-object-type"))
                    (recorded s result) ]).
  { unfold group_counts. rewrite analyze_recorded.
    rewrite !record_by_type, record_hooks. reflexivity. }
  split; [exact E|].
  rewrite E, problems_are_findings.
  repeat constructor; apply count_where_le.
Qed.

(** * The two shapes do not mix *)










Lemma file_lines_keep_found (ls : list text) : forall st,
  Forall (fun l => is_file_line l = true \/ parse_block l = None) ls ->
  found (fold_left step2 ls st) = found st.
Proof.
  induction ls as [|l ls IH]; intros st H; [reflexivity|].
  inversion H as [|? ? Hl Hls]; subst. cbn [fold_left].
  rewrite IH by assumption. unfold step2.
  destruct Hl as [Hl | Hl]; rewrite Hl; [reflexivity|].
  destruct (is_file_line l); [reflexivity|].
  destruct (truthy (current_file st)); reflexivity.
Qed.

(** X19: analyze-lint2.py finds nothing in a report of the flat shape: each
    flat line starts with a slash, so it only moves the cursor. *)
Theorem block_script_skips_flat_report (result : CompletedProcess)
    (ws : list Written)
    (Herr : stderr result = flat_report ws)
    (Hws : forallb (written_ok true) ws = true) :
  analyze2 result = no_findings.
Proof.
  unfold analyze2, scan2. rewrite Herr. unfold flat_report.
  destruct (recorded1_written _ Hws) as [_ L].
  destruct ws as [|w ws]; [vm_compute; reflexivity|].
  rewrite split_unlines; [|discriminate | exact L].
  change no_findings with (found start2). apply file_lines_keep_found.
  apply Forall_forall. intros l Hl. left.
  apply in_map_iff in Hl. destruct Hl as (w' & <- & Hw').
  rewrite forallb_forall in Hws. specialize (Hws w' Hw').
  destruct (written_ok_spec _ _ Hws)
    as (g1 & g2 & g3 & g4 & Eg & Hp & _).
  rewrite is_file_line_slash. unfold flat_line_of. rewrite Eg.
  destruct (flat_path_spec _ (Hp eq_refl)) as (p & -> & _). reflexivity.
Qed.

(** * Witnesses on the sample of analyze-lint2.py *)



Lemma block_script_skips_flat_report_witness :
  analyze2 {| stdout := []; stderr := flat_line ++ nl ++ flat_line |}
  = no_findings.
Proof.
  apply (block_script_skips_flat_report
           {| stdout := []; stderr := flat_line ++ nl ++ flat_line |}
           [ {| w_path := txt "/a/b/src/components/Foo.tsx";
                w_finding := w_finding (any_finding (txt "12") (txt "3"));
                w_gaps := (txt " ", txt "  ", txt "  ", txt "  ") |};
             {| w_path := txt "/a/b/src/components/Foo.tsx";
                w_finding := w_finding (any_finding (txt "12") (txt "3"));
                w_gaps := (txt " ", txt "  ", txt "  ", txt "  ") |} ]);
    vm_compute; reflexivity.
Defined.
